(** * apply_design_system: the ordered literal-replacement table, the
    rewrite pass over a file's content and the per-file driver.

    Texts, file names and console lines are Python [str] values; they are
    modelled as [string], a file's content being the text that reading it in
    text mode gives.  Every pattern and replacement of the table is ASCII.
    The file system is a finite map from paths to nodes: regular files
    with their permissions, whose bytes are text or are not, directories,
    and links, through which two paths share one file.  The effects of
    [process_file] and [main] (existence tests, reads, writes, printed
    lines, uncaught exceptions) are threaded through a small
    state-and-exception monad. *)

From Stdlib Require Import Strings.String Strings.Ascii List Arith Lia Bool.
From stdpp Require Import base gmap strings.
Import ListNotations.

Local Open Scope string_scope.
Local Open Scope list_scope.

(** ** Strings: slicing and occurrence tests *)

Module Str.

(** [s[n:]] *)
Fixpoint drop (n : nat) (s : string) : string :=
  match n, s with
  | O, _ => s
  | S _, "" => ""
  | S k, String _ s' => drop k s'
  end.

(** [s[:n]] *)
Fixpoint take (n : nat) (s : string) : string :=
  match n, s with
  | O, _ => ""
  | S _, "" => ""
  | S k, String c s' => String c (take k s')
  end.

(** [s.startswith(p)] *)
Definition startswith (s p : string) : bool := String.prefix p s.

(** [s.endswith(p)] *)
Definition endswith (s p : string) : bool :=
  Nat.leb (String.length p) (String.length s) &&
  String.eqb (drop (String.length s - String.length p) s) p.

(** Number of positions of [s] at which [p] occurs (occurrences may
    overlap). *)
Fixpoint occurrences (p s : string) : nat :=
  (if String.prefix p s then 1 else 0) +
  match s with
  | "" => 0
  | String _ s' => occurrences p s'
  end.

(** [p in s] *)
Fixpoint contains (s p : string) : bool :=
  String.prefix p s ||
  match s with
  | "" => false
  | String _ s' => contains s' p
  end.

(** [c in s] for a single character. *)
Fixpoint has_char (c : ascii) (s : string) : bool :=
  match s with
  | "" => false
  | String d s' => Ascii.eqb c d || has_char c s'
  end.

Fixpoint last_char (s : string) : option ascii :=
  match s with
  | "" => None
  | String c "" => Some c
  | String _ s' => last_char s'
  end.

(** ** [str.replace(old, new)] with no occurrence limit

    CPython scans left to right: the leftmost occurrence of [old] at or after
    the cursor is replaced by [new] and the cursor moves past it, so the
    replaced occurrences never overlap.  An empty [old] matches between every
    two characters and at both ends. *)

Section Replace.
Variables old new : string.

(** [skip] counts the characters of the occurrence just replaced that the
    cursor still has to pass. *)
Fixpoint replace_scan (skip : nat) (s : string) : string :=
  match s with
  | "" => ""
  | String c s' =>
      match skip with
      | S k => replace_scan k s'
      | O =>
          if String.prefix old s
          then new +:+ replace_scan (String.length old - 1) s'
          else String c (replace_scan 0 s')
      end
  end.

Fixpoint replace_empty (s : string) : string :=
  match s with
  | "" => new
  | String c s' => new +:+ String c (replace_empty s')
  end.

End Replace.

(** [s.replace(old, new)] *)
Definition replace (s old new : string) : string :=
  match old with
  | "" => replace_empty new s
  | String _ _ => replace_scan old new 0 s
  end.

End Str.

(** ** The rule table *)

Definition REPLACEMENTS : list (string * string) :=
  [ (* Card wrapper pattern *)
    ("bg-[#121212] backdrop-blur border border-slate-800 rounded-2xl",
     "rounded-2xl border border-gray-800 bg-white/[0.02]");
    (* Background hex colors *)
    ("bg-[#121212]", "bg-gray-950");
    ("bg-[#1a1a1a]", "bg-gray-900");
    ("bg-[#0a0f1c]", "bg-gray-950");
    ("bg-[#0a1020]", "bg-gray-950");
    ("bg-[#0F172A]", "bg-gray-950");
    (* Hover bg-slate (specific patterns first) *)
    ("hover:bg-slate-800/50", "hover:bg-white/[0.05]");
    ("hover:bg-slate-700/30", "hover:bg-white/[0.05]");
    ("hover:bg-slate-800/30", "hover:bg-white/[0.05]");
    ("hover:bg-slate-800/20", "hover:bg-white/[0.05]");
    ("hover:bg-slate-700", "hover:bg-gray-700");
    ("hover:bg-slate-600", "hover:bg-gray-600");
    (* Border slate (specific first) *)
    ("border-slate-800/50", "border-gray-800");
    ("border-slate-700/50", "border-gray-800");
    ("border-slate-800", "border-gray-800");
    ("border-slate-700", "border-gray-700");
    (* Background slate (specific first) *)
    ("bg-slate-800/50", "bg-white/[0.03]");
    ("bg-slate-800/30", "bg-white/[0.03]");
    ("bg-slate-800/20", "bg-white/[0.03]");
    ("bg-slate-900/50", "bg-gray-900");
    ("bg-slate-800", "bg-gray-800");
    ("bg-slate-900", "bg-gray-900");
    ("bg-slate-700", "bg-gray-700");
    ("bg-slate-500/20", "bg-gray-500/20");
    (* Text slate *)
    ("text-slate-600", "text-gray-500");
    ("text-slate-500", "text-gray-500");
    ("text-slate-400", "text-gray-400");
    ("text-slate-300", "text-gray-300");
    (* Emerald -> success (specific first) *)
    ("border-emerald-500/30", "border-success-500/20");
    ("border-emerald-500/20", "border-success-500/15");
    ("bg-emerald-900/50", "bg-success-500/5");
    ("bg-emerald-900/40", "bg-success-500/5");
    ("bg-emerald-900/30", "bg-success-500/5");
    ("bg-emerald-900/20", "bg-success-500/5");
    ("bg-emerald-900/10", "bg-success-500/5");
    ("bg-emerald-800/20", "bg-success-500/5");
    ("bg-emerald-500/20", "bg-success-500/10");
    ("bg-emerald-500/10", "bg-success-500/10");
    ("bg-emerald-500", "bg-success-500");
    ("bg-emerald-600", "bg-success-600");
    ("hover:bg-emerald-500", "hover:bg-success-400");
    ("text-emerald-300", "text-success-300");
    ("text-emerald-400", "text-success-400");
    ("text-emerald-500", "text-success-500");
    (* Red -> error (specific first) *)
    ("bg-red-500/20", "bg-error-500/10");
    ("bg-red-500/10", "bg-error-500/10");
    ("bg-red-900/50", "bg-error-500/10");
    ("bg-red-900/30", "bg-error-500/10");
    ("bg-red-600", "bg-error-600");
    ("bg-red-500", "bg-error-500");
    ("hover:bg-red-500", "hover:bg-error-500");
    ("text-red-400", "text-error-400");
    ("text-red-500", "text-error-500");
    (* Amber/Yellow -> warning *)
    ("border-amber-500/30", "border-warning-500/20");
    ("bg-amber-500/10", "bg-warning-500/5");
    ("bg-amber-500/20", "bg-warning-500/5");
    ("bg-amber-500", "bg-warning-500");
    ("text-amber-400", "text-warning-400");
    ("text-yellow-400", "text-warning-400");
    (* Purple -> brand (specific first) *)
    ("border-purple-500/30", "border-brand-500/20");
    ("border-purple-500/20", "border-brand-500/20");
    ("bg-purple-900/30", "bg-brand-500/10");
    ("bg-purple-900/20", "bg-brand-500/10");
    ("bg-purple-800/30", "bg-brand-500/10");
    ("bg-purple-500/20", "bg-brand-500/10");
    ("bg-purple-500/10", "bg-brand-500/10");
    ("bg-purple-600", "bg-brand-600");
    ("bg-purple-500", "bg-brand-500");
    ("hover:bg-purple-700", "hover:bg-brand-600");
    ("hover:bg-purple-500", "hover:bg-brand-500");
    ("text-purple-400", "text-brand-400");
    ("text-purple-500", "text-brand-500");
    ("text-purple-300", "text-brand-300");
    ("ring-purple-500", "ring-brand-500");
    ("focus:ring-purple-500", "focus:ring-brand-500");
    (* Blue -> blue-light/brand *)
    ("text-blue-400", "text-blue-light-400");
    ("text-blue-300", "text-blue-light-300");
    ("bg-blue-500/20", "bg-brand-500/10");
    ("bg-blue-600", "bg-brand-600");
    ("bg-blue-500", "bg-brand-500");
    (* Focus ring pattern *)
    ("focus:ring-2 focus:ring-brand-500",
     "focus:outline-hidden focus:ring-3 focus:ring-brand-500/10");
    (* Remove font-inter *)
    (" font-inter", "");
    ("font-inter ", "");
    ("font-inter", "") ].

(** ** The rewrite pass of [process_file]

    [for old, new in REPLACEMENTS: content = content.replace(old, new)] *)
Definition apply_replacements (rules : list (string * string))
    (content : string) : string :=
  fold_left (fun content '(old, new) => Str.replace content old new)
            rules content.

(** The pure part of [process_file]: the rewritten content and the outcome of
    the test [content != original]. *)
Definition rewrite (original : string) : string * bool :=
  let content := apply_replacements REPLACEMENTS original in
  (content, negb (String.eqb content original)).

(** The double quote character, for texts that hold one. *)
Definition dquote : string := String (Ascii.ascii_of_nat 34) "".

(** ** Checks on patterns and on the table

    These are the decidable side conditions under which a pass of
    [str.replace] can be predicted from the shape of the text. *)

(** [p] has a border: a proper, non-empty suffix of [p] is also a prefix of
    [p], so two occurrences of [p] can overlap. *)
Definition bordered (p : string) : bool :=
  existsb (fun i => String.prefix (Str.drop i p) p)
          (seq 1 (String.length p - 1)).

(** One of the two strings starts with the other. *)
Definition prefix_agree (u v : string) : bool :=
  String.prefix u v || String.prefix v u.

(** One of the two strings ends with the other. *)
Definition suffix_agree (u v : string) : bool :=
  Str.endswith u v || Str.endswith v u.

(** No occurrence of [p] in [x +:+ y] lies across the junction: an
    occurrence that touches both sides would split [p] into a non-empty end
    of [x] and a non-empty start of [y]. *)
Definition no_straddle (p x y : string) : Prop :=
  forall u v w z,
    x = u +:+ v -> y = w +:+ z -> p = v +:+ w -> v = "" \/ w = "".

(** The cuts [k] of [p] at which an occurrence of [p] can lie across the
    junction of a text ending in [e] and a text starting with [s]: the first
    [k] characters of [p] before the junction, the others after it. *)
Definition straddle_cuts (p e s : string) : list nat :=
  List.filter
    (fun k => suffix_agree (Str.take k p) e && prefix_agree (Str.drop k p) s)
    (seq 1 (String.length p - 1)).

(** [old] is not empty and no occurrence of it can lie across either end of
    a block [b], whatever surrounds the block. *)
Definition clear_of (old b : string) : bool :=
  negb (String.eqb old "") &&
  match straddle_cuts old "" b, straddle_cuts old b "" with
  | [], [] => true
  | _, _ => false
  end.

(** Follows a block of text through the rules: the block after the rules, as
    long as every rule is clear of the block it meets. *)
Fixpoint track (rules : list (string * string)) (b : string)
    : option string :=
  match rules with
  | [] => Some b
  | (old, new) :: rest =>
      if clear_of old b then track rest (Str.replace b old new) else None
  end.

(** The replacement of a rule cannot complete an ending [h]: its last
    character does not occur in [h]. *)
Definition keeps_ending (h : string) (rule : string * string) : bool :=
  negb (String.eqb (fst rule) "") &&
  match Str.last_char (snd rule) with
  | Some c => negb (Str.has_char c h)
  | None => false
  end.

(** The pairs of positions [(i, j)], [i < j], at which the table has the
    more general pattern first: the pattern at [i] occurs inside the
    different pattern at [j]. *)
Fixpoint later_containing (j : nat) (p : string)
    (rest : list (string * string)) : list nat :=
  match rest with
  | [] => []
  | (q, _) :: rest' =>
      (if Str.contains q p && negb (String.eqb p q) then [j] else [])
      ++ later_containing (S j) p rest'
  end.

Fixpoint misordered_from (i : nat) (rules : list (string * string))
    : list (nat * nat) :=
  match rules with
  | [] => []
  | (p, _) :: rest =>
      List.map (pair i) (later_containing (S i) p rest)
      ++ misordered_from (S i) rest
  end.

Definition misordered (rules : list (string * string)) : list (nat * nat) :=
  misordered_from 0 rules.

(** The ordering invariant of the table, as its header comment words it:
    of two rules whose patterns are related by containment, the one with the
    containing pattern comes first. *)
Definition specific_first (rules : list (string * string)) : Prop :=
  forall i j p q,
    i < j ->
    fst <$> rules !! i = Some p ->
    fst <$> rules !! j = Some q ->
    p <> q ->
    Str.contains q p = false.

(** ** More checks on the table *)

(** The text accumulated by the first [n] rules of the table. *)
Definition after_rules (n : nat) (text : string) : string :=
  apply_replacements (firstn n REPLACEMENTS) text.

(** The character occurs in no pattern of the table. *)
Definition separator (c : ascii) : bool :=
  forallb (fun rule : string * string => negb (Str.has_char c (fst rule)))
          REPLACEMENTS.

(** The line feed. *)
Definition newline : string := String (Ascii.ascii_of_nat 10) "".

(** The replacement of a rule can neither hold the pattern [q] nor take part
    in an occurrence of it. *)
Definition cannot_form (q : string) (rule : string * string) : bool :=
  clear_of q (snd rule) && negb (Str.contains (snd rule) q).

(** The table without the rules at the positions [dead]. *)
Definition without (dead : list nat) (rules : list (string * string))
    : list (string * string) :=
  List.map snd
    (List.filter (fun ir => negb (existsb (Nat.eqb (fst ir)) dead))
                 (combine (seq 0 (List.length rules)) rules)).

(** The positions of the rules whose effect on an occurrence of their own
    pattern depends on what stands around it, or on an earlier rule. *)
Definition context_bound : list nat :=
  [0; 1; 10; 14; 15; 16; 17; 18; 20; 21; 22; 38; 40; 49; 50; 56; 67; 69; 73;
   74; 79; 81; 82; 83].

(** ** Files and effects *)

(** What a path names.  A [RegularFile] holds bytes that are text in the
    default encoding, [content] being that text; an [UndecodableFile] holds
    bytes that are not.  A [Link] names the file that [target] names: a
    symbolic link, or any other way in which two paths share one file. *)
Inductive node : Type :=
| RegularFile (content : string) (readable writable : bool)
| Directory
| UndecodableFile (readable writable : bool)
| Link (target : string).

Inductive exn : Type :=
| FileNotFoundError (path : string)
| PermissionError (path : string)
| IsADirectoryError (path : string)
| UnicodeDecodeError (path : string)
| OSError_ELOOP (path : string).

Inductive event : Type :=
| Exists (path : string)
| Read (path : string)
| Write (path content : string)
| Print (line : string).

Record world : Type := World {
  files : gmap string node;
  trace : list event
}.

Definition emit (e : event) (w : world) : world :=
  {| files := files w; trace := trace w ++ [e] |}.

(** A computation either returns a value or raises; the world it leaves
    keeps whatever it did before raising. *)
Definition io (A : Type) : Type := world -> (exn + A) * world.

Definition ret {A} (a : A) : io A := fun w => (inr a, w).

Definition bind {A B} (m : io A) (k : A -> io B) : io B :=
  fun w =>
    match m w with
    | (inl e, w') => (inl e, w')
    | (inr a, w') => k a w'
    end.

Declare Scope io_scope.
Delimit Scope io_scope with io.
Notation "x <- m ;; k" := (bind m (fun x => k))
  (at level 100, m at next level, right associativity) : io_scope.
Notation "m ;;; k" := (bind m (fun _ => k))
  (at level 100, right associativity) : io_scope.
Local Open Scope io_scope.

Definition is_link (n : node) : bool :=
  match n with
  | Link _ => true
  | _ => false
  end.

(** Where following the links from a path ends: at a path that holds a
    file or a directory, at a path that names nothing, or nowhere. *)
Inductive resolution : Type :=
| Found (path : string) (n : node)
| Dangling (path : string)
| Loop.

(** The number of links the system follows before it gives up. *)
Definition MAXSYMLINKS : nat := 40.

Fixpoint resolve (fuel : nat) (fsys : gmap string node) (path : string)
    : resolution :=
  match fsys !! path with
  | None => Dangling path
  | Some (Link target) =>
      match fuel with
      | O => Loop
      | S k => resolve k fsys target
      end
  | Some n => Found path n
  end.

(** [os.path.exists(path)]: links are followed; a link that leads nowhere
    does not exist. *)
Definition path_exists (path : string) : io bool :=
  fun w => (inr (match resolve MAXSYMLINKS (files w) path with
                 | Found _ _ => true
                 | _ => false
                 end),
            emit (Exists path) w).

(** [with open(path, 'r') as f: f.read()]: opening fails on a file that
    cannot be read, on a directory and on a path that leads nowhere; reading
    fails on bytes that are not text. *)
Definition read_text (path : string) : io string :=
  fun w =>
    match resolve MAXSYMLINKS (files w) path with
    | Found _ (RegularFile content true _) => (inr content, emit (Read path) w)
    | Found _ (RegularFile _ false _) => (inl (PermissionError path), w)
    | Found _ (UndecodableFile true _) =>
        (inl (UnicodeDecodeError path), emit (Read path) w)
    | Found _ (UndecodableFile false _) => (inl (PermissionError path), w)
    | Found _ Directory => (inl (IsADirectoryError path), w)
    | Dangling _ => (inl (FileNotFoundError path), w)
    | Found _ (Link _) | Loop => (inl (OSError_ELOOP path), w)
    end.

(** [with open(path, 'w') as f: f.write(content)]: the file the path leads
    to holds exactly [content] afterwards, so every path that leads to it
    shows the new content; at the end of a chain that names nothing, a file
    is created. *)
Definition write_text (path content : string) : io unit :=
  fun w =>
    match resolve MAXSYMLINKS (files w) path with
    | Found p (RegularFile _ r true) | Found p (UndecodableFile r true) =>
        (inr tt, {| files := <[p := RegularFile content r true]> (files w);
                    trace := trace w ++ [Write path content] |})
    | Found _ (RegularFile _ _ false) | Found _ (UndecodableFile _ false) =>
        (inl (PermissionError path), w)
    | Found _ Directory => (inl (IsADirectoryError path), w)
    | Dangling p =>
        (inr tt, {| files := <[p := RegularFile content true true]> (files w);
                    trace := trace w ++ [Write path content] |})
    | Found _ (Link _) | Loop => (inl (OSError_ELOOP path), w)
    end.

(** [print(line)] *)
Definition print (line : string) : io unit :=
  fun w => (inr tt, emit (Print line) w).

(** [for x in xs: body(x)] *)
Fixpoint for_each {A} (xs : list A) (body : A -> io unit) : io unit :=
  match xs with
  | [] => ret tt
  | x :: xs' => body x ;;; for_each xs' body
  end.

(** [os.path.join(a, b)] on a POSIX system. *)
Definition os_path_join (a b : string) : string :=
  if Str.startswith b "/" then b
  else if String.eqb a "" || Str.endswith a "/" then a +:+ b
  else a +:+ "/" +:+ b.

Definition FILES : list string :=
  [ "ComparisonMatrix.tsx";
    "GhostDataChart.tsx";
    "SigmoidEditor.tsx";
    "AIScorecard.tsx";
    "StrategistInsights.tsx";
    "DeadbandGauges.tsx";
    "AnomalyLog.tsx";
    "AmazonConnect.tsx";
    "AuditHistory.tsx";
    "GalaxyMap.tsx";
    "IntelligenceBriefing.tsx";
    "EnterpriseOverview.tsx";
    "ProfitCalculator.tsx";
    "CampaignBrowser.tsx";
    "LiveShadowTicker.tsx";
    "MultiAgentTelemetry.tsx";
    "UCCLPanel.tsx";
    "LogViewer.tsx";
    "VerifiedSourceBadge.tsx";
    "MissedProfitTicker.tsx";
    "DecisionContextModal.tsx" ].

Definition process_file (filepath : string) : io bool :=
  original <- read_text filepath ;;
  let (content, changed) := rewrite original in
  if changed then (write_text filepath content ;;; ret true)
  else ret false.

Section Main.
(** [os.path.dirname(os.path.abspath(__file__))]: where the script is
    installed. *)
Variable script_dir : string.

Definition COMPONENTS_DIR : string := script_dir +:+ "/components".

(** The body of the loop of [main]. *)
Definition main_step (filename : string) : io unit :=
  let filepath := os_path_join COMPONENTS_DIR filename in
  present <- path_exists filepath ;;
  if present then
    (changed <- process_file filepath ;;
     print ((if changed then "UPDATED" else "NO CHANGES") +:+ ": " +:+ filename))
  else print ("MISSING: " +:+ filename).

Definition main : io unit := for_each FILES main_step.
End Main.

(** ** What a run of [main] amounts to *)

(** The path [main] makes for a listed name. *)
Definition target_path (script_dir name : string) : string :=
  os_path_join (COMPONENTS_DIR script_dir) name.




(** Nothing appears or disappears at the path, a directory stays one, a
    link keeps its target, and a file keeps its permissions and stays text
    or not text. *)
Definition same_kind (before after : option node) : Prop :=
  match before, after with
  | None, None => True
  | Some Directory, Some Directory => True
  | Some (RegularFile _ r wr), Some (RegularFile _ r' wr') =>
      r = r' /\ wr = wr'
  | Some (UndecodableFile r wr), Some (UndecodableFile r' wr') =>
      r = r' /\ wr = wr'
  | Some (Link t), Some (Link t') => t = t'
  | _, _ => False
  end.

(** The path at which following the links from [path] finds a file or a
    directory, if it finds one. *)
Definition leads_to (fsys : gmap string node) (path : string)
    : option string :=
  match resolve MAXSYMLINKS fsys path with
  | Found p _ => Some p
  | _ => None
  end.

(** * Facts about strings *)

Module StrFacts.
Import Str.

Lemma app_cons c (s t : string) : String c s +:+ t = String c (s +:+ t).
Proof. reflexivity. Qed.

Lemma app_nil_l (s : string) : "" +:+ s = s.
Proof. reflexivity. Qed.

Lemma app_nil_r (s : string) : s +:+ "" = s.
Proof. induction s as [|c s IH]; [reflexivity|]. now rewrite app_cons, IH. Qed.

Lemma app_assoc (a b c : string) : (a +:+ b) +:+ c = a +:+ (b +:+ c).
Proof.
  induction a as [|x a IH]; [reflexivity|].
  now rewrite !app_cons, IH.
Qed.

Lemma length_app (a b : string) :
  String.length (a +:+ b) = String.length a + String.length b.
Proof.
  induction a as [|x a IH]; [reflexivity|].
  rewrite app_cons. simpl. now rewrite IH.
Qed.

Lemma length_zero (s : string) : String.length s = 0 -> s = "".
Proof. destruct s; [reflexivity | discriminate]. Qed.

(** Two ways of cutting one string: one cut lies inside a part of the
    other. *)
Lemma app_eq_app (a b c d : string) :
  a +:+ b = c +:+ d ->
  (exists m, c = a +:+ m /\ b = m +:+ d) \/
  (exists m, a = c +:+ m /\ d = m +:+ b).
Proof.
  revert c. induction a as [|x a IH]; intros c H.
  - left. exists c. now rewrite app_nil_l in *.
  - destruct c as [|y c].
    + right. exists (String x a). now rewrite app_nil_l in *.
    + rewrite !app_cons in H. injection H as -> H.
      destruct (IH _ H) as [[m [-> ->]]|[m [-> ->]]];
        [left | right]; exists m; now rewrite app_cons.
Qed.

Lemma drop_nil n : drop n "" = "".
Proof. now destruct n. Qed.

Lemma drop_app_length (a b : string) : drop (String.length a) (a +:+ b) = b.
Proof. induction a as [|x a IH]; [reflexivity|]. now rewrite app_cons. Qed.

Lemma take_app_length (a b : string) : take (String.length a) (a +:+ b) = a.
Proof.
  induction a as [|x a IH]; [reflexivity|].
  rewrite app_cons. simpl. now rewrite IH.
Qed.

Lemma take_drop n (s : string) : take n s +:+ drop n s = s.
Proof.
  revert s. induction n as [|n IH]; intros [|c s]; try reflexivity.
  simpl. now rewrite app_cons, IH.
Qed.

Lemma length_take n (s : string) :
  String.length (take n s) = Nat.min n (String.length s).
Proof.
  revert s. induction n as [|n IH]; intros [|c s]; simpl; auto.
Qed.

Lemma prefix_nil (s : string) : String.prefix "" s = true.
Proof. now destruct s. Qed.

Lemma prefix_app (p s : string) : String.prefix p (p +:+ s) = true.
Proof.
  induction p as [|x p IH]; [apply prefix_nil|].
  rewrite app_cons. simpl. now destruct (ascii_dec x x).
Qed.

Lemma prefix_split (p s : string) :
  String.prefix p s = true -> s = p +:+ drop (String.length p) s.
Proof.
  revert s. induction p as [|x p IH]; intros s H; [reflexivity|].
  destruct s as [|y s]; [discriminate|]. simpl in H.
  destruct (ascii_dec x y) as [->|]; [|discriminate].
  rewrite app_cons. simpl. f_equal. auto.
Qed.

Lemma prefix_iff (p s : string) :
  String.prefix p s = true <-> exists t, s = p +:+ t.
Proof.
  split.
  - intros H. eexists. now apply prefix_split.
  - intros [t ->]. apply prefix_app.
Qed.

Lemma prefix_app_l (p a b : string) :
  String.prefix p a = true -> String.prefix p (a +:+ b) = true.
Proof.
  intros H. apply prefix_iff. apply prefix_iff in H as [t ->].
  exists (t +:+ b). apply app_assoc.
Qed.

(** Induction on the length of a string. *)
Lemma length_ind (P : string -> Prop) :
  (forall s, (forall t, String.length t < String.length s -> P t) -> P s) ->
  forall s, P s.
Proof.
  intros H s.
  assert (G : forall n t, String.length t < n -> P t).
  { induction n as [|n IH]; intros t Ht; [lia|].
    apply H. intros u Hu. apply IH. lia. }
  apply (G (S (String.length s))). lia.
Qed.

(** ** Occurrence tests *)

Lemma contains_iff (s p : string) :
  contains s p = true <-> exists a b, s = a +:+ p +:+ b.
Proof.
  split.
  - induction s as [|c s IH]; cbn [contains]; intros H.
    + apply orb_true_iff in H as [H|H]; [|discriminate].
      apply prefix_iff in H as [t Ht]. now exists "", t.
    + apply orb_true_iff in H as [H|H].
      * apply prefix_iff in H as [t Ht]. now exists "", t.
      * destruct (IH H) as (a & b & ->). now exists (String c a), b.
  - intros (a & b & ->). induction a as [|c a IH].
    + rewrite app_nil_l.
      destruct (p +:+ b) eqn:E; cbn [contains]; rewrite <- E, prefix_app;
        reflexivity.
    + rewrite app_cons. cbn [contains]. rewrite IH. apply orb_true_r.
Qed.

Lemma contains_false_prefix (s p : string) :
  contains s p = false -> String.prefix p s = false.
Proof. destruct s; cbn [contains]; intros H; now apply orb_false_iff in H. Qed.

Lemma contains_false_tail c (s p : string) :
  contains (String c s) p = false -> contains s p = false.
Proof. cbn [contains]. intros H. now apply orb_false_iff in H. Qed.

Lemma occurrences_zero (p s : string) :
  occurrences p s = 0 <-> contains s p = false.
Proof.
  induction s as [|c s IH]; cbn [occurrences contains].
  - destruct (String.prefix p ""); simpl; split; (discriminate || reflexivity).
  - destruct (String.prefix p (String c s)); simpl; [split; discriminate|].
    exact IH.
Qed.

Lemma endswith_iff (s p : string) :
  endswith s p = true <-> exists m, s = m +:+ p.
Proof.
  unfold endswith. rewrite andb_true_iff, Nat.leb_le, String.eqb_eq. split.
  - intros [Hle Hd]. exists (take (String.length s - String.length p) s).
    rewrite <- Hd at 2. symmetry. apply take_drop.
  - intros [m ->]. rewrite length_app. split; [lia|].
    replace (String.length m + String.length p - String.length p)
      with (String.length m) by lia.
    apply drop_app_length.
Qed.

Lemma endswith_false (s p : string) :
  endswith s p = false <-> forall m, s <> m +:+ p.
Proof.
  rewrite <- not_true_iff_false, endswith_iff. split.
  - intros H m E. apply H. now exists m.
  - intros H [m E]. now apply (H m).
Qed.

(** ** One pass of [str.replace] *)

Section ReplaceFacts.
Variables old new : string.
Hypothesis old_nonempty : old <> "".

Lemma replace_unfold (s : string) :
  replace s old new = replace_scan old new 0 s.
Proof. unfold replace. destruct old; [contradiction | reflexivity]. Qed.

Lemma replace_scan_skip k (s : string) :
  replace_scan old new k s = replace_scan old new 0 (drop k s).
Proof.
  revert s. induction k as [|k IH]; intros s; [reflexivity|].
  destruct s as [|c s]; [reflexivity | apply IH].
Qed.

Lemma replace_nil : replace "" old new = "".
Proof. now rewrite replace_unfold. Qed.

(** The cursor is on an occurrence: it is replaced and skipped. *)
Lemma replace_hit (s : string) :
  String.prefix old s = true ->
  replace s old new = new +:+ replace (drop (String.length old) s) old new.
Proof.
  intros H. rewrite !replace_unfold.
  destruct s as [|c s].
  - destruct old; [contradiction | discriminate].
  - cbn [replace_scan]. rewrite H, replace_scan_skip.
    destruct old as [|x o]; [contradiction|].
    simpl. now rewrite Nat.sub_0_r.
Qed.

(** The cursor is not on an occurrence: one character is copied. *)
Lemma replace_miss c (s : string) :
  String.prefix old (String c s) = false ->
  replace (String c s) old new = String c (replace s old new).
Proof.
  intros H. rewrite !replace_unfold. cbn [replace_scan]. now rewrite H.
Qed.

(** A text without occurrences is returned as it is. *)
Lemma replace_absent (s : string) :
  contains s old = false -> replace s old new = s.
Proof.
  induction s as [|c s IH]; intros H; [apply replace_nil|].
  rewrite replace_miss by now apply contains_false_prefix.
  f_equal. apply IH. eapply contains_false_tail, H.
Qed.

(** The leftmost occurrence is always replaced, wherever the text came
    from. *)
Lemma replace_fires (s : string) :
  contains s old = true ->
  exists a b,
    s = a +:+ old +:+ b /\
    contains (a +:+ take (String.length old - 1) old) old = false /\
    replace s old new = a +:+ new +:+ replace b old new.
Proof.
  induction s as [|c s IH]; intros H.
  - cbn [contains] in H. rewrite orb_false_r in H.
    destruct old; [contradiction | discriminate].
  - destruct (String.prefix old (String c s)) eqn:Hp.
    + exists "", (drop (String.length old) (String c s)).
      rewrite !app_nil_l. split; [now apply prefix_split|]. split.
      * apply not_true_iff_false. intros (a & b & E)%contains_iff.
        apply (f_equal String.length) in E. rewrite !length_app in E.
        rewrite length_take in E.
        destruct old; [contradiction | simpl in E; lia].
      * now apply replace_hit.
    + cbn [contains] in H. rewrite Hp in H. simpl in H.
      destruct (IH H) as (a & b & -> & Hn & Hr).
      exists (String c a), b. rewrite !app_cons. split; [reflexivity|]. split.
      * cbn [contains]. rewrite Hn, orb_false_r.
        apply not_true_iff_false. intros Hq. 
        apply (prefix_app_l _ _ (drop (String.length old - 1) old +:+ b)) in Hq.
        rewrite <- app_cons, app_assoc, <- (app_assoc (take _ _)) in Hq.
        rewrite take_drop in Hq. rewrite app_cons in Hq. congruence.
      * rewrite replace_miss by assumption. now rewrite Hr.
Qed.

End ReplaceFacts.

Lemma contains_empty (s : string) : contains s "" = true.
Proof. destruct s; reflexivity. Qed.

Lemma replace_absent' (s old new : string) :
  contains s old = false -> replace s old new = s.
Proof.
  intros H. apply replace_absent; [|exact H].
  intros ->. now rewrite contains_empty in H.
Qed.

End StrFacts.

(** * The rewrite pass *)

Lemma apply_replacements_cons old new rules (content : string) :
  apply_replacements ((old, new) :: rules) content =
  apply_replacements rules (Str.replace content old new).
Proof. reflexivity. Qed.

Lemma apply_replacements_app rules1 rules2 (content : string) :
  apply_replacements (rules1 ++ rules2) content =
  apply_replacements rules2 (apply_replacements rules1 content).
Proof. apply fold_left_app. Qed.

(** No pattern of the rules occurs in the text: the pass leaves it alone. *)
Lemma apply_replacements_absent rules (content : string) :
  forallb (fun rule => negb (Str.contains content (fst rule))) rules = true ->
  apply_replacements rules content = content.
Proof.
  induction rules as [|[old new] rules IH]; intros H; [reflexivity|].
  simpl in H. apply andb_true_iff in H as [H1 H2].
  rewrite apply_replacements_cons, StrFacts.replace_absent'.
  - now apply IH.
  - now apply negb_true_iff.
Qed.

(** The flag is the test [content != original] on the final text. *)
Lemma rewrite_flag (text : string) :
  snd (rewrite text) = true <-> fst (rewrite text) <> text.
Proof.
  unfold rewrite. cbn [fst snd].
  rewrite negb_true_iff. apply String.eqb_neq.
Qed.

(** * Passes over a text cut in parts *)

Module Cut.
Import Str StrFacts.

Lemma no_straddle_tail (p m x y : string) :
  no_straddle p (m +:+ x) y -> no_straddle p x y.
Proof.
  intros H u v w z -> Ey Ep. apply (H (m +:+ u) v w z); auto.
  now rewrite app_assoc.
Qed.

Section ReplaceApp.
Variables old new : string.
Hypothesis old_nonempty : old <> "".

(** A pass over two parts is the two passes, as long as no occurrence lies
    across the junction. *)
Lemma replace_app (x y : string) :
  no_straddle old x y ->
  replace (x +:+ y) old new = replace x old new +:+ replace y old new.
Proof.
  induction x as [x IH] using length_ind. intros NS.
  destruct x as [|c x'] eqn:Ex.
  { now rewrite replace_nil, !app_nil_l. }
  rewrite <- Ex in *.
  destruct (String.prefix old (x +:+ y)) eqn:Hp.
  - pose proof (prefix_split _ _ Hp) as E.
    destruct (app_eq_app _ _ _ _ E) as [(m & Eo & Ey)|(m & Exm & Ed)].
    + (* the occurrence ends at or after the junction *)
      destruct (NS "" x m (drop (String.length old) (x +:+ y)))
        as [->| ->]; auto; [discriminate|].
      rewrite app_nil_r in Eo. subst old.
      rewrite (replace_hit x new old_nonempty (x +:+ y)) by exact Hp.
      rewrite (replace_hit x new old_nonempty x)
        by (rewrite <- (app_nil_r x) at 2; apply prefix_app).
      rewrite drop_app_length.
      rewrite <- (app_nil_r x) at 3. rewrite drop_app_length.
      now rewrite replace_nil, app_nil_r.
    + (* the occurrence lies in the first part *)
      rewrite (replace_hit old new old_nonempty (x +:+ y)) by exact Hp.
      rewrite (replace_hit old new old_nonempty x)
        by (rewrite Exm; apply prefix_app).
      rewrite Exm at 1 2. rewrite app_assoc, !drop_app_length.
      rewrite app_assoc. f_equal.
      apply IH.
      * rewrite Exm, length_app. destruct old; [contradiction|simpl; lia].
      * apply (no_straddle_tail old old). now rewrite <- Exm.
  - assert (Hx : String.prefix old x = false).
    { destruct (String.prefix old x) eqn:Hx; [|reflexivity].
      now rewrite (prefix_app_l _ _ y Hx) in Hp. }
    rewrite Ex in *. rewrite app_cons in *.
    rewrite !(replace_miss old new old_nonempty) by assumption.
    rewrite app_cons. f_equal. apply IH; [simpl; lia|].
    apply (no_straddle_tail old (String c "")). exact NS.
Qed.

(** The same for a block between two parts. *)
Lemma replace_app3 (x b y : string) :
  no_straddle old x (b +:+ y) ->
  no_straddle old b y ->
  replace (x +:+ b +:+ y) old new =
  replace x old new +:+ replace b old new +:+ replace y old new.
Proof.
  intros H1 H2. rewrite replace_app by exact H1.
  now rewrite (replace_app b y) by exact H2.
Qed.

End ReplaceApp.

(** ** The decidable conditions are sound *)

Lemma suffix_agree_cut (x0 e u v : string) :
  x0 +:+ e = u +:+ v -> suffix_agree v e = true.
Proof.
  intros E. unfold suffix_agree. apply orb_true_iff.
  destruct (app_eq_app _ _ _ _ E) as [(m & _ & Ev)|(m & _ & Ev)];
    [right | left]; apply endswith_iff; now exists m.
Qed.

Lemma prefix_agree_cut (s y0 w z : string) :
  s +:+ y0 = w +:+ z -> prefix_agree w s = true.
Proof.
  intros E. unfold prefix_agree. apply orb_true_iff.
  destruct (app_eq_app _ _ _ _ E) as [(m & Ew & _)|(m & Es & _)];
    [right | left]; apply prefix_iff; now exists m.
Qed.

(** Every way an occurrence of [p] can lie across the junction of a text
    ending in [e] and a text starting with [s] is one of the computed cuts. *)
Lemma straddle_cuts_complete (p e s x0 y0 u v w z : string) :
  x0 +:+ e = u +:+ v -> s +:+ y0 = w +:+ z -> p = v +:+ w ->
  v <> "" -> w <> "" ->
  In (String.length v) (straddle_cuts p e s) /\
  take (String.length v) p = v.
Proof.
  intros Ex Ey -> Hv Hw. split; [|apply take_app_length].
  unfold straddle_cuts. apply filter_In. split.
  - apply in_seq. rewrite length_app.
    destruct v; [contradiction|]. destruct w; [contradiction|]. simpl. lia.
  - rewrite take_app_length, drop_app_length.
    rewrite (suffix_agree_cut _ _ _ _ Ex), (prefix_agree_cut _ _ _ _ Ey).
    reflexivity.
Qed.

Lemma straddle_cuts_sound (p e s x0 y0 : string) :
  (forall k, In k (straddle_cuts p e s) ->
             endswith (x0 +:+ e) (take k p) = false) ->
  no_straddle p (x0 +:+ e) (s +:+ y0).
Proof.
  intros H u v w z Ex Ey Ep.
  destruct (string_dec v "") as [Hv|Hv]; [now left|].
  destruct (string_dec w "") as [Hw|Hw]; [now right|].
  destruct (straddle_cuts_complete p e s x0 y0 u v w z) as [Hin Ht];
    try assumption.
  specialize (H _ Hin). rewrite Ht in H.
  destruct (proj1 (endswith_false _ _) H u Ex).
Qed.

(** The junction before a block, with what is known of the text before
    it. *)
Lemma no_straddle_before (p x b y : string) :
  (forall k, In k (straddle_cuts p "" b) -> endswith x (take k p) = false) ->
  no_straddle p x (b +:+ y).
Proof.
  intros H. rewrite <- (app_nil_r x). apply straddle_cuts_sound.
  intros k Hk. rewrite app_nil_r. now apply H.
Qed.

(** The junction after a block. *)
Lemma no_straddle_after (p b y : string) :
  straddle_cuts p b "" = [] -> no_straddle p b y.
Proof.
  intros H.
  change (no_straddle p ("" +:+ b) ("" +:+ y)).
  apply straddle_cuts_sound. rewrite H. intros k [].
Qed.

Lemma clear_of_sound (old b : string) :
  clear_of old b = true ->
  old <> "" /\
  forall x y, no_straddle old x (b +:+ y) /\ no_straddle old b y.
Proof.
  unfold clear_of. intros H. apply andb_true_iff in H as [Hne H].
  apply negb_true_iff, String.eqb_neq in Hne. split; [exact Hne|].
  destruct (straddle_cuts old "" b) eqn:E1; [|discriminate].
  destruct (straddle_cuts old b "") eqn:E2; [|discriminate].
  intros x y. split.
  - apply no_straddle_before. rewrite E1. intros k [].
  - now apply no_straddle_after.
Qed.

(** A block that every rule is clear of goes through the pass on its own,
    and so do the texts on its two sides. *)
Lemma track_sound rules (b b' : string) :
  track rules b = Some b' ->
  forall x y,
    apply_replacements rules (x +:+ b +:+ y) =
    apply_replacements rules x +:+ b' +:+ apply_replacements rules y.
Proof.
  revert b. induction rules as [|[old new] rules IH]; intros b H x y.
  - injection H as ->. reflexivity.
  - cbn [track] in H. destruct (clear_of old b) eqn:Hc; [|discriminate].
    apply clear_of_sound in Hc as [Hne Hns].
    destruct (Hns x y) as [N1 N2].
    rewrite !apply_replacements_cons.
    rewrite replace_app3 by assumption.
    now apply IH.
Qed.

End Cut.

(** * Patterns without a border: every occurrence is replaced *)

Module Pieces.
Import Str StrFacts.

(** The only strings that both start and end an unbordered pattern are the
    empty string and the pattern. *)
Lemma bordered_false (p u v w : string) :
  bordered p = false -> p = u +:+ v -> p = v +:+ w -> u = "" \/ v = "".
Proof.
  intros Hb Eu Ev.
  destruct (string_dec u "") as [|Hu]; [now left|].
  destruct (string_dec v "") as [|Hv]; [now right|].
  exfalso. unfold bordered in Hb.
  rewrite <- not_true_iff_false in Hb. apply Hb.
  apply existsb_exists. exists (String.length u). split.
  - apply in_seq. rewrite Eu, length_app.
    destruct u; [contradiction|]. destruct v; [contradiction|]. simpl. lia.
  - rewrite Eu at 1. rewrite drop_app_length. rewrite Ev. apply prefix_app.
Qed.

Section Unbordered.
Variables old new : string.
Hypothesis old_nonempty : old <> "".
Hypothesis old_unbordered : bordered old = false.

(** No occurrence starts inside another one. *)
Lemma no_occurrence_inside (u v t : string) :
  old = u +:+ v -> u <> "" -> v <> "" ->
  String.prefix old (v +:+ t) = false.
Proof.
  intros E Hu Hv. destruct (String.prefix old (v +:+ t)) eqn:Hp; [|reflexivity].
  exfalso. apply prefix_split in Hp.
  destruct (app_eq_app _ _ _ _ Hp) as [(m & Eo & _)|(m & Ev & _)].
  - destruct (bordered_false old u v m old_unbordered E Eo) as [->| ->].
    + contradiction.
    + contradiction.
  - apply (f_equal String.length) in E. rewrite Ev, !length_app in E.
    assert (String.length u = 0) by lia.
    now apply Hu, length_zero.
Qed.

Lemma occurrences_inside (u v t : string) :
  old = u +:+ v -> u <> "" -> occurrences old (v +:+ t) = occurrences old t.
Proof.
  revert u. induction v as [|c v IH]; intros u E Hu; [reflexivity|].
  rewrite app_cons. cbn [occurrences]. rewrite <- app_cons.
  rewrite (no_occurrence_inside u (String c v) t E Hu) by discriminate.
  apply (IH (u +:+ String c "")).
  - now rewrite app_assoc.
  - destruct u; [contradiction | discriminate].
Qed.

Lemma occurrences_hit (t : string) :
  occurrences old (old +:+ t) = S (occurrences old t).
Proof.
  assert (exists c o, old = String c o) as (c & o & E).
  { destruct old; [contradiction | eauto]. }
  replace (old +:+ t) with (String c (o +:+ t)) by now rewrite E.
  cbn [occurrences].
  replace (String c (o +:+ t)) with (old +:+ t) by now rewrite E.
  rewrite prefix_app. simpl. f_equal.
  apply (occurrences_inside (String c "") o); [exact E | discriminate].
Qed.

Lemma concat_cons_char sep c (x : string) xs :
  String.concat sep (String c x :: xs) = String c (String.concat sep (x :: xs)).
Proof. destruct xs; reflexivity. Qed.

Lemma concat_cons_nil sep (y : string) xs :
  String.concat sep ("" :: y :: xs) = sep +:+ String.concat sep (y :: xs).
Proof. reflexivity. Qed.

Lemma concat_head sep (x : string) xs :
  exists rest, String.concat sep (x :: xs) = x +:+ rest.
Proof.
  destruct xs as [|y xs]; [exists ""; now rewrite app_nil_r|].
  now exists (sep +:+ String.concat sep (y :: xs)).
Qed.

(** The text is cut at the occurrences of [old]: the pieces between them
    contain none, there is one more piece than there are occurrences, and the
    pass joins the same pieces with [new]. *)
Lemma replace_pieces (s : string) :
  exists pieces,
    s = String.concat old pieces /\
    replace s old new = String.concat new pieces /\
    List.length pieces = S (occurrences old s) /\
    Forall (fun piece => contains piece old = false) pieces.
Proof.
  induction s as [s IH] using length_ind.
  destruct s as [|c s'] eqn:Es.
  { exists [""]. repeat split.
    - now rewrite replace_nil.
    - simpl. destruct old; [contradiction | reflexivity].
    - constructor; [|constructor].
      simpl. destruct old; [contradiction | reflexivity]. }
  rewrite <- Es in *.
  destruct (String.prefix old s) eqn:Hp.
  - pose proof (prefix_split _ _ Hp) as E.
    destruct (IH (drop (String.length old) s)) as (ps & E1 & E2 & E3 & E4).
    { rewrite E at 2. rewrite length_app.
      destruct old; [contradiction | simpl; lia]. }
    destruct ps as [|y ps]; [discriminate|].
    exists ("" :: y :: ps). repeat split.
    + rewrite concat_cons_nil, <- E1. exact E.
    + rewrite (replace_hit old new old_nonempty s Hp), E2. reflexivity.
    + rewrite E at 1. rewrite occurrences_hit. simpl in *. lia.
    + constructor; [|exact E4].
      simpl. destruct old; [contradiction | reflexivity].
  - destruct (IH s') as (ps & E1 & E2 & E3 & E4).
    { rewrite Es. simpl. lia. }
    destruct ps as [|y ps]; [discriminate|].
    exists (String c y :: ps). rewrite Es in *. repeat split.
    + rewrite concat_cons_char, <- E1. reflexivity.
    + rewrite (replace_miss old new old_nonempty c s' Hp), E2.
      now rewrite concat_cons_char.
    + cbn [occurrences]. rewrite Hp. simpl in *. lia.
    + inversion E4 as [|? ? Hy Hps]; subst. constructor; [|exact Hps].
      cbn [contains]. rewrite Hy, orb_false_r.
      destruct (String.prefix old (String c y)) eqn:Hq; [|reflexivity].
      destruct (concat_head old y ps) as [rest Er].
      rewrite Er, <- app_cons in Hp.
      now rewrite (prefix_app_l _ _ rest Hq) in Hp.
Qed.

End Unbordered.
End Pieces.

(** * What a pass does to the end of a text *)

Module Ending.
Import Str StrFacts.

Lemma has_char_app c (a b : string) :
  has_char c (a +:+ b) = has_char c a || has_char c b.
Proof.
  induction a as [|x a IH]; [reflexivity|].
  rewrite app_cons. simpl. now rewrite IH, orb_assoc.
Qed.

Lemma last_char_has c (s : string) :
  last_char s = Some c -> has_char c s = true.
Proof.
  induction s as [|x s IH]; [discriminate|].
  simpl. destruct s as [|y s].
  - intros [= ->]. now rewrite Ascii.eqb_refl.
  - intros H. rewrite (IH H). apply orb_true_r.
Qed.

Lemma last_char_app (z m : string) :
  m <> "" -> last_char (z +:+ m) = last_char m.
Proof.
  intros Hm. induction z as [|x z IH]; [reflexivity|].
  rewrite app_cons. cbn [last_char].
  destruct (z +:+ m) eqn:E; [|exact IH].
  destruct z; [|discriminate]. now rewrite app_nil_l in E.
Qed.

Section KeepsEnding.
Variables old new : string.
Variable c : ascii.
Hypothesis old_nonempty : old <> "".
Hypothesis new_last : last_char new = Some c.

(** A result without the last character of [new] saw no replacement. *)
Lemma replace_without_char (s : string) :
  has_char c (replace s old new) = false -> replace s old new = s.
Proof.
  induction s as [s IH] using length_ind.
  destruct s as [|x s'] eqn:Es; [now rewrite replace_nil|].
  rewrite <- Es. destruct (String.prefix old s) eqn:Hp.
  - rewrite (replace_hit old new old_nonempty s Hp), has_char_app.
    now rewrite (last_char_has _ _ new_last).
  - rewrite Es in *. rewrite (replace_miss old new old_nonempty x s' Hp).
    simpl. intros H. apply orb_false_iff in H as [_ H].
    f_equal. apply IH; [simpl; lia | exact H].
Qed.

(** An ending [h] that cannot hold the last character of [new] is at the end
    of the result only if it was at the end of the text. *)
Lemma replace_ending (h s : string) :
  has_char c h = false ->
  endswith (replace s old new) h = true -> endswith s h = true.
Proof.
  intros Hc. rewrite !endswith_iff.
  induction s as [s IH] using length_ind. intros [z E].
  destruct s as [|x s'] eqn:Es.
  { rewrite replace_nil in E by assumption. now exists z. }
  rewrite <- Es in *. destruct (String.prefix old s) eqn:Hp.
  - rewrite (replace_hit old new old_nonempty s Hp) in E.
    assert (Hlt : String.length (drop (String.length old) s)
                  < String.length s).
    { rewrite (prefix_split _ _ Hp) at 2. rewrite length_app.
      destruct old; [contradiction | simpl; lia]. }
    assert (G : exists m, replace (drop (String.length old) s) old new
                          = m +:+ h).
    { destruct (app_eq_app _ _ _ _ E) as [(m & _ & Er)|(m & En & Eh)].
      - now exists m.
      - destruct (string_dec m "") as [->|Hm].
        + exists "". now rewrite app_nil_l in *.
        + exfalso. rewrite En, (last_char_app z m Hm) in new_last.
          apply last_char_has in new_last.
          rewrite Eh, has_char_app, new_last in Hc. discriminate. }
    destruct (IH _ Hlt G) as [z' Ez].
    exists (old +:+ z'). rewrite app_assoc, <- Ez. now apply prefix_split.
  - rewrite Es in *. rewrite (replace_miss old new old_nonempty x s' Hp) in E.
    destruct z as [|y z].
    + rewrite app_nil_l in E. exists "". rewrite app_nil_l, <- E.
      f_equal. symmetry. apply replace_without_char.
      rewrite <- E in Hc. simpl in Hc. now apply orb_false_iff in Hc.
    + rewrite app_cons in E. injection E as <- E.
      destruct (IH s') as [z' ->]; [simpl; lia | now exists z |].
      now exists (String x z').
Qed.

End KeepsEnding.

(** Rules that keep an ending out do so along the whole pass. *)
Lemma apply_replacements_ending (h : string) rules (s : string) :
  forallb (keeps_ending h) rules = true ->
  endswith s h = false ->
  endswith (apply_replacements rules s) h = false.
Proof.
  revert s. induction rules as [|[old new] rules IH]; intros s Hk Hs;
    [exact Hs|].
  simpl in Hk. apply andb_true_iff in Hk as [Hr Hk].
  rewrite apply_replacements_cons. apply IH; [exact Hk|].
  unfold keeps_ending in Hr. simpl in Hr.
  apply andb_true_iff in Hr as [Hne Hl].
  apply negb_true_iff, String.eqb_neq in Hne.
  destruct (last_char new) as [c|] eqn:El; [|discriminate].
  apply negb_true_iff in Hl.
  destruct (endswith (replace s old new) h) eqn:E; [|reflexivity].
  now rewrite (replace_ending old new c Hne El h s Hl E) in Hs.
Qed.

End Ending.

(** * The ordering of the table *)

Module Order.
Import Str.

Lemma later_containing_spec (p : string) rest j k :
  In k (later_containing j p rest) <->
  exists d q,
    fst <$> rest !! d = Some q /\ k = j + d /\
    contains q p = true /\ p <> q.
Proof.
  revert j. induction rest as [|[q0 r0] rest IH]; intros j.
  - split; [intros [] | intros (d & q & H & _)]. discriminate.
  - cbn [later_containing]. rewrite in_app_iff, IH. split.
    + intros [H|(d & q & Hq & -> & Hc & Hne)].
      * destruct (contains q0 p && negb (String.eqb p q0)) eqn:E;
          [|destruct H].
        destruct H as [<-|[]]. apply andb_true_iff in E as [Hc Hne].
        apply negb_true_iff, String.eqb_neq in Hne.
        exists 0, q0. split; [reflexivity|]. split; [lia|]. now split.
      * exists (S d), q. split; [exact Hq|]. split; [lia|]. now split.
    + intros (d & q & Hq & -> & Hc & Hne). destruct d as [|d].
      * left. injection Hq as <-.
        apply String.eqb_neq in Hne. rewrite Hc, Hne. left. lia.
      * right. exists d, q. split; [exact Hq|]. split; [lia|]. now split.
Qed.

Lemma misordered_from_spec rules i a b :
  In (a, b) (misordered_from i rules) <->
  exists x y (p q : string),
    a = i + x /\ b = i + y /\ x < y /\
    fst <$> rules !! x = Some p /\ fst <$> rules !! y = Some q /\
    p <> q /\ contains q p = true.
Proof.
  revert i. induction rules as [|[p0 r0] rules IH]; intros i.
  - split; [intros [] | intros (x & y & p & q & _ & _ & _ & H & _)].
    discriminate.
  - cbn [misordered_from]. rewrite in_app_iff, in_map_iff, IH. split.
    + intros [(k & [= <- <-] & Hk)|(x & y & p & q & -> & -> & Hlt & Hp & Hq & H)].
      * apply later_containing_spec in Hk as (d & q & Hq & -> & Hc & Hne).
        exists 0, (S d), p0, q. repeat split; try assumption; lia.
      * exists (S x), (S y), p, q. repeat split; try apply H; try assumption; lia.
    + intros (x & y & p & q & -> & -> & Hlt & Hp & Hq & Hne & Hc).
      destruct y as [|y]; [lia|]. destruct x as [|x].
      * left. injection Hp as <-. exists (S i + y). split; [f_equal; lia|].
        apply later_containing_spec. exists y, q. now repeat split.
      * right. exists x, y, p, q. repeat split; try assumption; lia.
Qed.

(** [misordered] lists exactly the pairs of positions that break the
    ordering. *)
Lemma misordered_spec rules a b :
  In (a, b) (misordered rules) <->
  exists p q : string,
    a < b /\
    fst <$> rules !! a = Some p /\ fst <$> rules !! b = Some q /\
    p <> q /\ contains q p = true.
Proof.
  unfold misordered. rewrite misordered_from_spec. split.
  - intros (x & y & p & q & -> & -> & H). now exists p, q.
  - intros (p & q & H). exists a, b, p, q. now repeat split.
Qed.

Lemma specific_first_iff rules :
  specific_first rules <-> misordered rules = [].
Proof.
  split.
  - intros H. destruct (misordered rules) as [|[a b] l] eqn:E; [reflexivity|].
    assert (Hin : In (a, b) (misordered rules)) by (rewrite E; now left).
    apply misordered_spec in Hin as (p & q & Hlt & Hp & Hq & Hne & Hc).
    rewrite (H a b p q Hlt Hp Hq Hne) in Hc. discriminate.
  - intros H i j p q Hlt Hp Hq Hne.
    destruct (contains q p) eqn:Hc; [|reflexivity].
    assert (Hin : In (i, j) (misordered rules)).
    { apply misordered_spec. now exists p, q. }
    rewrite H in Hin. destruct Hin.
Qed.

End Order.

(** * The table and the rewrite pass *)

Section Claims.
Import Str StrFacts.

(** No pattern of the table is empty and none has a border, so the
    occurrences of a pattern in a text never overlap. *)
Lemma table_patterns_unbordered old new :
  In (old, new) REPLACEMENTS -> old <> "" /\ bordered old = false.
Proof.
  assert (H : forallb (fun rule => negb (String.eqb (fst rule) "")
                                   && negb (bordered (fst rule)))
                      REPLACEMENTS = true) by (vm_compute; reflexivity).
  intros Hin. apply (proj1 (forallb_forall _ _) H) in Hin. simpl in Hin.
  apply andb_true_iff in Hin as [H1 H2].
  apply negb_true_iff in H1, H2. now apply String.eqb_neq in H1.
Qed.

(** C5. When no pattern of the table occurs in the result of a run, a
    second run on that result changes nothing: it returns the same text and
    the flag false. *)
Theorem second_run_is_noop (text : string) :
  (forall old new, In (old, new) REPLACEMENTS ->
                   ~ exists a b, fst (rewrite text) = a +:+ old +:+ b) ->
  rewrite (fst (rewrite text)) = (fst (rewrite text), false).
Proof.
  intros H.
  assert (E : apply_replacements REPLACEMENTS (fst (rewrite text))
              = fst (rewrite text)).
  { apply apply_replacements_absent. apply forallb_forall.
    intros [old new] Hin. apply negb_true_iff, not_true_iff_false.
    intros Hc%contains_iff. exact (H old new Hin Hc). }
  unfold rewrite at 1. rewrite E. f_equal.
  apply negb_false_iff, String.eqb_refl.
Qed.

Lemma second_run_is_noop_witness :
  rewrite (fst (rewrite "text-slate-400 bg-slate-800/50 font-inter")) =
  (fst (rewrite "text-slate-400 bg-slate-800/50 font-inter"), false).
Proof.
  apply (second_run_is_noop "text-slate-400 bg-slate-800/50 font-inter").
  intros old new Hin Hc%contains_iff.
  assert (H : forallb
                (fun rule =>
                   negb (contains
                           (fst (rewrite
                                   "text-slate-400 bg-slate-800/50 font-inter"))
                           (fst rule)))
                REPLACEMENTS = true) by (vm_compute; reflexivity).
  apply (proj1 (forallb_forall _ _) H) in Hin. cbn [fst] in Hin.
  apply negb_true_iff in Hin. congruence.
Defined.

(** C7. The scenario of the specification: three slate classes in one
    attribute become the three gray classes, and the flag is true. *)
Theorem rewrite_scenario :
  rewrite ("<div class=" +:+ dquote
           +:+ "bg-slate-800 border-slate-700 text-slate-400"
           +:+ dquote +:+ ">")
  = ("<div class=" +:+ dquote
     +:+ "bg-gray-800 border-gray-700 text-gray-400"
     +:+ dquote +:+ ">", true).
Proof. vm_compute. reflexivity. Qed.

(** C3. The table does not keep its own ordering rule.  Exactly four
    patterns come before a longer pattern that contains them:
    [bg-emerald-500] before [hover:bg-emerald-500] (positions 38 and 40),
    [bg-red-500] before [hover:bg-red-500] (49 and 50), [bg-purple-500]
    before [hover:bg-purple-500] (67 and 69) and [ring-purple-500] before
    [focus:ring-purple-500] (73 and 74).  The shorter rule rewrites the text
    the longer one was written for: [hover:bg-emerald-500] comes out as
    [hover:bg-success-500], not as the [hover:bg-success-400] of its own
    rule. *)
Theorem table_general_before_specific :
  ~ specific_first REPLACEMENTS /\
  (forall i j,
      (exists p q : string,
          i < j /\
          fst <$> REPLACEMENTS !! i = Some p /\
          fst <$> REPLACEMENTS !! j = Some q /\
          p <> q /\ contains q p = true) <->
      In (i, j) [(38, 40); (49, 50); (67, 69); (73, 74)]) /\
  REPLACEMENTS !! 38 = Some ("bg-emerald-500", "bg-success-500") /\
  REPLACEMENTS !! 40 = Some ("hover:bg-emerald-500", "hover:bg-success-400") /\
  rewrite "hover:bg-emerald-500" = ("hover:bg-success-500", true).
Proof.
  assert (E : misordered REPLACEMENTS
              = [(38, 40); (49, 50); (67, 69); (73, 74)])
    by (vm_compute; reflexivity).
  split; [|split; [|repeat split; vm_compute; reflexivity]].
  - intros H%Order.specific_first_iff. rewrite E in H. discriminate.
  - intros i j. rewrite <- E. symmetry. apply Order.misordered_spec.
Qed.

(** C6. A rule fires on text that an earlier rule produced.  In general, at
    every rule of the table, an occurrence of its pattern in the accumulated
    text is replaced, whichever rule put it there.  The example: a block
    [focus:ring-2 focus:ring-purple-500] does not hold the pattern of the
    focus ring rule (rule 80); rule 73 turns it into
    [focus:ring-2 focus:ring-brand-500], which is that pattern; rule 80 then
    rewrites the produced block, in the same pass, whatever stands around
    it. *)
Theorem chained_rule_fires :
  (forall pre old new post (text : string),
      REPLACEMENTS = pre ++ (old, new) :: post ->
      contains (apply_replacements pre text) old = true ->
      exists a b,
        apply_replacements pre text = a +:+ old +:+ b /\
        apply_replacements (pre ++ [(old, new)]) text =
          a +:+ new +:+ replace b old new) /\
  REPLACEMENTS !! 73 = Some ("ring-purple-500", "ring-brand-500") /\
  REPLACEMENTS !! 80 =
    Some ("focus:ring-2 focus:ring-brand-500",
          "focus:outline-hidden focus:ring-3 focus:ring-brand-500/10") /\
  contains "focus:ring-2 focus:ring-purple-500"
           "focus:ring-2 focus:ring-brand-500" = false /\
  forall a b : string,
    let input := a +:+ "focus:ring-2 focus:ring-purple-500" +:+ b in
    let upto n := apply_replacements (firstn n REPLACEMENTS) in
    upto 73 input =
      upto 73 a +:+ "focus:ring-2 focus:ring-purple-500" +:+ upto 73 b /\
    upto 74 input =
      upto 74 a +:+ "focus:ring-2 focus:ring-brand-500" +:+ upto 74 b /\
    upto 80 input =
      upto 80 a +:+ "focus:ring-2 focus:ring-brand-500" +:+ upto 80 b /\
    upto 81 input =
      upto 81 a
      +:+ "focus:outline-hidden focus:ring-3 focus:ring-brand-500/10"
      +:+ upto 81 b /\
    fst (rewrite input) =
      fst (rewrite a)
      +:+ "focus:outline-hidden focus:ring-3 focus:ring-brand-500/10"
      +:+ fst (rewrite b).
Proof.
  split; [|repeat split; try (vm_compute; reflexivity)].
  - intros pre old new post text E Hc.
    destruct (table_patterns_unbordered old new) as [Hne _].
    { rewrite E. apply in_elt. }
    destruct (replace_fires old new Hne _ Hc) as (a & b & E1 & _ & E2).
    exists a, b. split; [exact E1|].
    now rewrite apply_replacements_app.
  - apply Cut.track_sound. vm_compute. reflexivity.
  - apply Cut.track_sound. vm_compute. reflexivity.
  - apply Cut.track_sound. vm_compute. reflexivity.
  - apply Cut.track_sound. vm_compute. reflexivity.
  - apply (Cut.track_sound REPLACEMENTS). vm_compute. reflexivity.
Qed.

(** Against C10 as it is worded: in [font-font-interinter] one occurrence
    of [font-inter] lies inside another; the pass deletes the inner one and
    what is left is [font-inter]. *)
Lemma font_inter_survives :
  rewrite "font-font-interinter" = ("font-inter", true) /\
  ~ (forall text : string,
        contains (fst (rewrite text)) "font-inter" = false).
Proof.
  split; [vm_compute; reflexivity|].
  intros H. specialize (H "font-font-interinter").
  vm_compute in H. discriminate.
Qed.

(** C10, as the code has it.  The last rule deletes every occurrence of
    [font-inter] in the text accumulated by the rules before it, those in
    the input as well as any that earlier replacements completed: the
    accumulated text is its pieces joined by [font-inter], the result is the
    same pieces put together with nothing between them, and no piece holds
    [font-inter].  An occurrence in the result can only lie across a place
    where a deletion joined two pieces. *)
Theorem font_inter_occurrences_deleted (text : string) :
  let acc := apply_replacements (firstn 83 REPLACEMENTS) text in
  REPLACEMENTS = firstn 83 REPLACEMENTS ++ [("font-inter", "")] /\
  exists pieces,
    acc = String.concat "font-inter" pieces /\
    fst (rewrite text) = String.concat "" pieces /\
    List.length pieces = S (occurrences "font-inter" acc) /\
    Forall (fun piece => contains piece "font-inter" = false) pieces.
Proof.
  intros acc. split; [reflexivity|].
  destruct (Pieces.replace_pieces "font-inter" "") with (s := acc)
    as (pieces & E1 & E2 & E3 & E4); [discriminate | reflexivity |].
  exists pieces. split; [exact E1|]. split; [|split; assumption].
  rewrite <- E2. reflexivity.
Qed.

(** ** The more specific rule and the rule before it *)

Lemma table_around_hover_rule (s : string) :
  apply_replacements REPLACEMENTS s =
  apply_replacements (skipn 7 REPLACEMENTS)
    (replace (apply_replacements (firstn 6 REPLACEMENTS) s)
             "hover:bg-slate-800/50" "hover:bg-white/[0.05]").
Proof.
  change REPLACEMENTS with
    (firstn 6 REPLACEMENTS
     ++ ("hover:bg-slate-800/50", "hover:bg-white/[0.05]")
        :: skipn 7 REPLACEMENTS) at 1.
  now rewrite apply_replacements_app, apply_replacements_cons.
Qed.

(** The hover rule leaves a block [bg-slate-800/50] alone unless [hover:]
    stands right before it. *)
Lemma hover_rule_step (x y : string) :
  endswith x "hover:" = false ->
  replace (x +:+ "bg-slate-800/50" +:+ y)
          "hover:bg-slate-800/50" "hover:bg-white/[0.05]" =
  replace x "hover:bg-slate-800/50" "hover:bg-white/[0.05]"
  +:+ "bg-slate-800/50"
  +:+ replace y "hover:bg-slate-800/50" "hover:bg-white/[0.05]".
Proof.
  intros Hx.
  assert (E1 : straddle_cuts "hover:bg-slate-800/50" "" "bg-slate-800/50"
               = [6]) by (vm_compute; reflexivity).
  assert (E2 : straddle_cuts "hover:bg-slate-800/50" "bg-slate-800/50" ""
               = []) by (vm_compute; reflexivity).
  rewrite Cut.replace_app3.
  - reflexivity.
  - discriminate.
  - apply Cut.no_straddle_before. rewrite E1. intros k [<-|[]]. exact Hx.
  - now apply Cut.no_straddle_after.
Qed.

(** Against C4 as it is worded: the text [hover:bg-slate-800/50] holds
    [bg-slate-800/50], and the pass does not put [bg-white/[0.03]] in its
    place. *)
Lemma specific_rule_not_after_hover :
  rewrite "hover:bg-slate-800/50" = ("hover:bg-white/[0.05]", true) /\
  ~ (forall a b : string, exists a' b',
        fst (rewrite (a +:+ "bg-slate-800/50" +:+ b)) =
        a' +:+ "bg-white/[0.03]" +:+ b').
Proof.
  split; [vm_compute; reflexivity|].
  intros H. destruct (H "hover:" "") as (a' & b' & E).
  assert (C : contains (fst (rewrite ("hover:" +:+ "bg-slate-800/50" +:+ "")))
                       "bg-white/[0.03]" = true).
  { apply contains_iff. now exists a', b'. }
  vm_compute in C. discriminate.
Qed.

(** C4, as the code has it.  An occurrence of [bg-slate-800/50] is
    rewritten by the first rule of the table that matches it, and that is
    never the rule of the bare [bg-slate-800]: with [hover:] right before
    it, the occurrence belongs to the rule of [hover:bg-slate-800/50] and
    becomes [hover:bg-white/[0.05]]; anywhere else it becomes
    [bg-white/[0.03]].  In both cases the texts on the two sides are
    rewritten as if they stood alone. *)
Theorem specific_rule_wins (a b : string) :
  if endswith a "hover:" then
    exists a0,
      a = a0 +:+ "hover:" /\
      fst (rewrite (a +:+ "bg-slate-800/50" +:+ b)) =
      fst (rewrite a0) +:+ "hover:bg-white/[0.05]" +:+ fst (rewrite b)
  else
    fst (rewrite (a +:+ "bg-slate-800/50" +:+ b)) =
    fst (rewrite a) +:+ "bg-white/[0.03]" +:+ fst (rewrite b).
Proof.
  destruct (endswith a "hover:") eqn:E.
  - apply endswith_iff in E as [a0 ->]. exists a0. split; [reflexivity|].
    rewrite app_assoc.
    change ("hover:" +:+ "bg-slate-800/50" +:+ b)
      with ("hover:bg-slate-800/50" +:+ b).
    apply (Cut.track_sound REPLACEMENTS). vm_compute. reflexivity.
  - unfold rewrite. cbn [fst]. rewrite !table_around_hover_rule.
    rewrite (Cut.track_sound (firstn 6 REPLACEMENTS)
               "bg-slate-800/50" "bg-slate-800/50")
      by (vm_compute; reflexivity).
    rewrite hover_rule_step.
    + apply Cut.track_sound. vm_compute. reflexivity.
    + apply Ending.apply_replacements_ending; [|exact E].
      vm_compute. reflexivity.
Qed.

End Claims.

(** * Following links *)

Module Fs.

Lemma resolve_missing fuel (fsys : gmap string node) (path : string) :
  fsys !! path = None -> resolve fuel fsys path = Dangling path.
Proof. intros H. destruct fuel; cbn [resolve]; now rewrite H. Qed.

(** A path that holds a file or a directory leads to itself. *)
Lemma resolve_direct fuel (fsys : gmap string node) (path : string) n :
  fsys !! path = Some n -> is_link n = false ->
  resolve fuel fsys path = Found path n.
Proof.
  intros H Hn. destruct fuel; cbn [resolve]; rewrite H;
    destruct n; (discriminate || reflexivity).
Qed.

(** What the links lead to is held by the path they lead to, and is not a
    link. *)
Lemma resolve_found fuel (fsys : gmap string node) (path p : string) n :
  resolve fuel fsys path = Found p n ->
  fsys !! p = Some n /\ is_link n = false.
Proof.
  revert path. induction fuel as [|fuel IH]; intros path; cbn [resolve];
    destruct (fsys !! path) as [[c r wr| |r wr|t]|] eqn:E;
    try discriminate; try (intros [= <- <-]; now split).
  apply IH.
Qed.

(** Where the links lead depends on the links only: it is the same in two
    file systems that hold the same kind of thing at every path. *)
Lemma resolve_same_kind fuel (fsys fsys' : gmap string node) (path : string) :
  (forall q, same_kind (fsys !! q) (fsys' !! q)) ->
  match resolve fuel fsys path, resolve fuel fsys' path with
  | Found p _, Found p' _ => p = p'
  | Dangling p, Dangling p' => p = p'
  | Loop, Loop => True
  | _, _ => False
  end.
Proof.
  intros H. revert path. induction fuel as [|fuel IH]; intros path;
    cbn [resolve]; specialize (H path);
    destruct (fsys !! path) as [[c r wr| |r wr|t]|],
             (fsys' !! path) as [[c' r' wr'| |r'' wr''|t']|];
    cbn in H; try contradiction; try reflexivity; try exact I.
  subst t'. apply IH.
Qed.

Lemma leads_to_same_kind (fsys fsys' : gmap string node) (path : string) :
  (forall q, same_kind (fsys !! q) (fsys' !! q)) ->
  leads_to fsys' path = leads_to fsys path.
Proof.
  intros H. unfold leads_to.
  pose proof (resolve_same_kind MAXSYMLINKS fsys fsys' path H) as R.
  destruct (resolve MAXSYMLINKS fsys path),
           (resolve MAXSYMLINKS fsys' path); try contradiction;
    congruence.
Qed.

End Fs.

(** Rewrites with what a path that holds no link leads to. *)
Ltac resolved H :=
  first [ rewrite (Fs.resolve_missing _ _ _ H)
        | rewrite (Fs.resolve_direct _ _ _ _ H eq_refl) ].

(** * The driver *)

Section Driver.
Variable script_dir : string.

Lemma for_each_cons {A} (x : A) xs (body : A -> io unit) (w : world) :
  for_each (x :: xs) body w =
  match body x w with
  | (inl e, w') => (inl e, w')
  | (inr _, w') => for_each xs body w'
  end.
Proof. reflexivity. Qed.

(** What [process_file] does to a regular file that can be read: it writes
    the result when it differs from the content, and only then. *)
Lemma process_file_regular (filepath content : string) writable (w : world) :
  files w !! filepath = Some (RegularFile content true writable) ->
  process_file filepath w =
  if snd (rewrite content) then
    match write_text filepath (fst (rewrite content))
                     (emit (Read filepath) w) with
    | (inl e, w') => (inl e, w')
    | (inr _, w') => (inr true, w')
    end
  else (inr false, emit (Read filepath) w).
Proof.
  intros H. unfold process_file, bind, read_text. resolved H.
  destruct (rewrite content) as [result changed]. cbn [fst snd].
  destruct changed; [|reflexivity].
  unfold bind, ret. now destruct (write_text filepath result _) as [[e|[]] w'].
Qed.

(** C2. The changed flag is true exactly when the final text differs from
    the original text, character for character; it depends on nothing else
    of the pass.  It is the value [process_file] returns for a file with
    that content. *)
Theorem changed_iff_differs (text : string) :
  (snd (rewrite text) = true <-> fst (rewrite text) <> text) /\
  fst (rewrite text) = apply_replacements REPLACEMENTS text /\
  forall filepath (w : world),
    files w !! filepath = Some (RegularFile text true true) ->
    fst (process_file filepath w) = inr (snd (rewrite text)).
Proof.
  split; [apply rewrite_flag|]. split; [reflexivity|].
  intros filepath w H. rewrite (process_file_regular _ _ _ _ H).
  destruct (snd (rewrite text)); [|reflexivity].
  unfold write_text, emit. cbn [files]. now resolved H.
Qed.

(** A path that names nothing: one existence test, one line. *)
Lemma main_step_missing (filename : string) (w : world) :
  let filepath := os_path_join (COMPONENTS_DIR script_dir) filename in
  files w !! filepath = None ->
  main_step script_dir filename w =
  (inr tt, {| files := files w;
              trace := trace w ++ [Exists filepath;
                                   Print ("MISSING: " +:+ filename)] |}).
Proof.
  intros filepath H.
  unfold main_step, bind, path_exists. fold filepath. resolved H.
  unfold print, emit. cbn [files trace]. now rewrite <- app_assoc.
Qed.

(** When none of the listed files is there, the run prints one [MISSING]
    line per name, in the order of the list, and touches nothing. *)
Lemma for_each_missing names (w : world) :
  (forall name, In name names ->
     files w !! os_path_join (COMPONENTS_DIR script_dir) name = None) ->
  for_each names (main_step script_dir) w =
  (inr tt,
   {| files := files w;
      trace := trace w ++
        flat_map (fun name =>
                    [Exists (os_path_join (COMPONENTS_DIR script_dir) name);
                     Print ("MISSING: " +:+ name)]) names |}).
Proof.
  revert w. induction names as [|name names IH]; intros w H.
  - destruct w. cbn. now rewrite app_nil_r.
  - rewrite for_each_cons, main_step_missing by (apply H; now left).
    rewrite IH by (intros n Hn; apply H; now right).
    cbn [files trace flat_map]. now rewrite <- !app_assoc.
Qed.

Lemma main_nothing_installed (w : world) :
  (forall name, In name FILES ->
     files w !! os_path_join (COMPONENTS_DIR script_dir) name = None) ->
  fst (main script_dir w) = inr tt /\
  files (snd (main script_dir w)) = files w.
Proof.
  intros H. unfold main. now rewrite for_each_missing.
Qed.

(** X14. A file that is there but cannot be read ends the run: the
    exception is not caught, nothing is printed for the file, and the names
    after it are not looked at. *)
Lemma unreadable_file_is_fatal (filename content : string) writable rest
    (w : world) :
  let filepath := os_path_join (COMPONENTS_DIR script_dir) filename in
  files w !! filepath = Some (RegularFile content false writable) ->
  for_each (filename :: rest) (main_step script_dir) w =
  (inl (PermissionError filepath), emit (Exists filepath) w).
Proof.
  intros filepath H. rewrite for_each_cons.
  unfold main_step, bind, path_exists. fold filepath. resolved H.
  unfold process_file, bind, read_text, emit. cbn [files]. now resolved H.
Qed.

(** A path that leads to no file or directory (it names nothing, or it is
    a link that leads nowhere): one existence test, one line. *)
Lemma main_step_absent (filename : string) (w : world) :
  let filepath := os_path_join (COMPONENTS_DIR script_dir) filename in
  leads_to (files w) filepath = None ->
  main_step script_dir filename w =
  (inr tt, {| files := files w;
              trace := trace w ++ [Exists filepath;
                                   Print ("MISSING: " +:+ filename)] |}).
Proof.
  intros filepath H. unfold leads_to in H.
  unfold main_step, bind, path_exists. fold filepath.
  destruct (resolve MAXSYMLINKS (files w) filepath); [discriminate|..];
    unfold print, emit; cbn [files trace]; now rewrite <- app_assoc.
Qed.

(** C8. A target file whose path does not exist (the path names nothing,
    or the links from it lead nowhere) gets the line [MISSING] and nothing
    else: the only file system operation is the existence test, no file is
    read or written, the files are as they were, and the loop goes on with
    the next file name. *)
Theorem missing_file_reported (filename : string) rest (w : world) :
  let filepath := os_path_join (COMPONENTS_DIR script_dir) filename in
  leads_to (files w) filepath = None ->
  let w' := {| files := files w;
               trace := trace w ++ [Exists filepath;
                                    Print ("MISSING: " +:+ filename)] |} in
  main_step script_dir filename w = (inr tt, w') /\
  for_each (filename :: rest) (main_step script_dir) w =
  for_each rest (main_step script_dir) w'.
Proof.
  intros filepath H w'.
  pose proof (main_step_absent filename w H) as E. fold filepath w' in E.
  split; [exact E|]. now rewrite for_each_cons, E.
Qed.

(** What [process_file] does when the path leads to a regular file that
    holds text and can be read. *)
Lemma process_file_found (filepath p content : string) wr (w : world) :
  resolve MAXSYMLINKS (files w) filepath
  = Found p (RegularFile content true wr) ->
  process_file filepath w =
  if snd (rewrite content) then
    match write_text filepath (fst (rewrite content))
                     (emit (Read filepath) w) with
    | (inl e, w') => (inl e, w')
    | (inr _, w') => (inr true, w')
    end
  else (inr false, emit (Read filepath) w).
Proof.
  intros H. unfold process_file, bind, read_text. rewrite H.
  destruct (rewrite content) as [result changed]. cbn [fst snd].
  destruct changed; [|reflexivity].
  unfold bind, ret. now destruct (write_text filepath result _) as [[e|[]] w'].
Qed.


End Driver.


Lemma missing_file_reported_witness :
  main_step "/srv/dash" "LogViewer.tsx" {| files := ∅; trace := [] |} =
  (inr tt,
   {| files := ∅;
      trace := [Exists "/srv/dash/components/LogViewer.tsx";
                Print "MISSING: LogViewer.tsx"] |}).
Proof.
  apply (missing_file_reported "/srv/dash" "LogViewer.tsx" []
           {| files := ∅; trace := [] |}).
  reflexivity.
Defined.


(** * Blocks that the pass rewrites on their own *)

Module Blocks.
Import Str StrFacts.

Lemma no_straddle_before_char (old x : string) c (y : string) :
  has_char c old = false -> no_straddle old x (String c y).
Proof.
  intros Hc u v w z _ Ey Eo. destruct w as [|d w]; [now right|].
  rewrite app_cons in Ey. injection Ey as <- _.
  rewrite Eo, Ending.has_char_app in Hc. simpl in Hc.
  rewrite Ascii.eqb_refl, orb_true_r in Hc. discriminate.
Qed.

Lemma no_straddle_after_char (old : string) c (y : string) :
  has_char c old = false -> no_straddle old (String c "") y.
Proof.
  intros Hc u v w z Ex _ Eo. destruct u as [|e u].
  - rewrite app_nil_l in Ex. subst v. rewrite Eo, app_cons in Hc. simpl in Hc.
    now rewrite Ascii.eqb_refl in Hc.
  - rewrite app_cons in Ex. injection Ex as _ Ex.
    left. destruct u; [now rewrite app_nil_l in Ex | discriminate].
Qed.

Lemma replace_char (old new : string) c :
  old <> "" -> has_char c old = false ->
  replace (String c "") old new = String c "".
Proof.
  intros Hne Hc. apply replace_absent'. apply not_true_iff_false.
  intros (a & b & E)%contains_iff.
  destruct old as [|y o]; [contradiction|].
  destruct a as [|x a].
  - rewrite app_nil_l, app_cons in E. injection E as <- _. simpl in Hc.
    now rewrite Ascii.eqb_refl in Hc.
  - rewrite app_cons in E. injection E as _ E.
    destruct a; discriminate.
Qed.

(** A character that occurs in no pattern cuts the text in two parts that
    go through the rules apart. *)
Lemma apply_replacements_char rules c (x y : string) :
  Forall (fun rule : string * string =>
            fst rule <> "" /\ has_char c (fst rule) = false) rules ->
  apply_replacements rules (x +:+ String c y) =
  apply_replacements rules x +:+ String c (apply_replacements rules y).
Proof.
  intros H. revert x y. induction H as [|[old new] rules [Hne Hc] _ IH];
    intros x y; [reflexivity|].
  cbn [fst] in *. rewrite !apply_replacements_cons.
  change (String c y) with (String c "" +:+ y).
  rewrite Cut.replace_app3; try assumption.
  - rewrite (replace_char old new c Hne Hc). apply IH.
  - now apply no_straddle_before_char.
  - now apply no_straddle_after_char.
Qed.

Lemma table_separator c :
  separator c = true ->
  Forall (fun rule : string * string =>
            fst rule <> "" /\ has_char c (fst rule) = false) REPLACEMENTS.
Proof.
  intros H. apply List.Forall_forall. intros [old new] Hin. cbn [fst]. split.
  - assert (E : forallb (fun rule : string * string =>
                           negb (String.eqb (fst rule) "")) REPLACEMENTS
                = true) by (vm_compute; reflexivity).
    apply (proj1 (forallb_forall _ _) E) in Hin.
    now apply negb_true_iff, String.eqb_neq in Hin.
  - apply (proj1 (forallb_forall _ _) H) in Hin.
    now apply negb_true_iff in Hin.
Qed.

Lemma rewrite_around_separator c (a b : string) :
  separator c = true ->
  fst (rewrite (a +:+ String c b)) =
  fst (rewrite a) +:+ String c (fst (rewrite b)).
Proof.
  intros H. apply apply_replacements_char. now apply table_separator.
Qed.

End Blocks.

(** * Patterns that a pass removes for good *)

Module Gone.
Import Str StrFacts.

Lemma contains_app_l (x y q : string) :
  contains x q = true -> contains (x +:+ y) q = true.
Proof.
  intros (a & b & ->)%contains_iff. apply contains_iff.
  exists a, (b +:+ y). now rewrite !app_assoc.
Qed.

Lemma contains_app_r (x y q : string) :
  contains y q = true -> contains (x +:+ y) q = true.
Proof.
  intros (a & b & ->)%contains_iff. apply contains_iff.
  exists (x +:+ a), b. now rewrite !app_assoc.
Qed.

Lemma contains_app_false (x y q : string) :
  contains (x +:+ y) q = false ->
  contains x q = false /\ contains y q = false.
Proof.
  intros H. split; apply not_true_iff_false; intros C.
  - now rewrite (contains_app_l x y q C) in H.
  - now rewrite (contains_app_r x y q C) in H.
Qed.

(** An occurrence in a text cut in two lies in one of the parts, unless it
    lies across the cut. *)
Lemma contains_app_split (q x y : string) :
  no_straddle q x y ->
  contains (x +:+ y) q = true ->
  contains x q = true \/ contains y q = true.
Proof.
  intros NS (a & b & E)%contains_iff.
  destruct (app_eq_app _ _ _ _ E) as [(m & -> & ->)|(m & -> & E')].
  - right. apply contains_iff. now exists m, b.
  - symmetry in E'.
    destruct (app_eq_app _ _ _ _ E') as [(m' & -> & ->)|(m' & -> & ->)].
    + destruct (NS a m m' b eq_refl eq_refl eq_refl) as [->| ->].
      * right. apply contains_iff. exists "", b. now rewrite !app_nil_l.
      * left. apply contains_iff. exists a, "". now rewrite !app_nil_r.
    + left. apply contains_iff. now exists a, m'.
Qed.

(** Pieces without [q], joined by a text that can neither hold [q] nor take
    part in an occurrence of it, give a text without [q]. *)
Lemma contains_concat (q sep : string) pieces :
  clear_of q sep = true -> contains sep q = false ->
  Forall (fun piece => contains piece q = false) pieces ->
  contains (String.concat sep pieces) q = false.
Proof.
  intros Hc Hs H. apply Cut.clear_of_sound in Hc as [Hne Hns].
  induction H as [|x pieces Hx H IH];
    [destruct q; [contradiction | reflexivity]|].
  destruct pieces as [|y pieces]; [exact Hx|].
  change (String.concat sep (x :: y :: pieces))
    with (x +:+ sep +:+ String.concat sep (y :: pieces)).
  destruct (Hns x (String.concat sep (y :: pieces))) as [N1 N2].
  apply not_true_iff_false. intros C.
  apply (contains_app_split q _ _ N1) in C as [C|C]; [congruence|].
  apply (contains_app_split q _ _ N2) in C as [C|C]; congruence.
Qed.

Lemma concat_pieces_absent (q sep : string) pieces :
  contains (String.concat sep pieces) q = false ->
  Forall (fun piece => contains piece q = false) pieces.
Proof.
  induction pieces as [|x pieces IH]; intros H; [constructor|].
  destruct pieces as [|y pieces]; [now repeat constructor|].
  change (String.concat sep (x :: y :: pieces))
    with (x +:+ sep +:+ String.concat sep (y :: pieces)) in H.
  apply contains_app_false in H as [Hx H].
  apply contains_app_false in H as [_ H]. constructor; auto.
Qed.

(** A text without [p] is without every text that holds [p]. *)
Lemma contains_trans (s p q : string) :
  contains q p = true -> contains s p = false -> contains s q = false.
Proof.
  intros (a & b & ->)%contains_iff H. apply not_true_iff_false.
  intros (c & d & ->)%contains_iff.
  rewrite <- not_true_iff_false in H. apply H. apply contains_iff.
  exists (c +:+ a), (b +:+ d). now rewrite !app_assoc.
Qed.

Section Pass.
Variables old new : string.
Hypothesis old_nonempty : old <> "".
Hypothesis old_unbordered : bordered old = false.

(** A pattern that the replacement cannot form is not brought into the
    text by the pass. *)
Lemma replace_keeps_absent (q s : string) :
  cannot_form q (old, new) = true ->
  contains s q = false -> contains (replace s old new) q = false.
Proof.
  unfold cannot_form. cbn [snd]. intros [Hc Hn%negb_true_iff]%andb_true_iff Hs.
  destruct (Pieces.replace_pieces old new old_nonempty old_unbordered s)
    as (pieces & E1 & -> & _ & _).
  apply contains_concat; try assumption.
  apply (concat_pieces_absent q old). now rewrite <- E1.
Qed.

(** When the replacement cannot form the pattern of its own rule, the
    pattern is gone after the pass. *)
Lemma replace_removes (s : string) :
  cannot_form old (old, new) = true ->
  contains (replace s old new) old = false.
Proof.
  unfold cannot_form. cbn [snd]. intros [Hc Hn%negb_true_iff]%andb_true_iff.
  destruct (Pieces.replace_pieces old new old_nonempty old_unbordered s)
    as (pieces & _ & -> & _ & H).
  now apply contains_concat.
Qed.

End Pass.
End Gone.

(** * The table, rule by rule *)

Section Table.
Import Str StrFacts.

Lemma lookup_In {A} (l : list A) i x : l !! i = Some x -> In x l.
Proof.
  revert i. induction l as [|y l IH]; intros [|i] H; try discriminate.
  - injection H as ->. now left.
  - right. exact (IH i H).
Qed.

Lemma lookup_indexed {A} (l : list A) k i x :
  l !! i = Some x -> In (k + i, x) (combine (seq k (List.length l)) l).
Proof.
  revert k i. induction l as [|y l IH]; intros k [|i] H; try discriminate.
  - injection H as ->. left. f_equal. lia.
  - right. replace (k + S i) with (S k + i) by lia. exact (IH (S k) i H).
Qed.

(** A property checked at every position of the table holds at each rule. *)
Lemma table_forall (P : nat -> string * string -> bool) :
  forallb (fun ir => P (fst ir) (snd ir))
          (combine (seq 0 (List.length REPLACEMENTS)) REPLACEMENTS) = true ->
  forall i rule, REPLACEMENTS !! i = Some rule -> P i rule = true.
Proof.
  intros H i rule Hi.
  apply (lookup_indexed _ 0) in Hi.
  exact (proj1 (forallb_forall _ _) H _ Hi).
Qed.

(** The rule at position [i] works on the text the rules before it left. *)
Lemma after_rules_succ i old new (text : string) :
  REPLACEMENTS !! i = Some (old, new) ->
  after_rules (S i) text = replace (after_rules i text) old new.
Proof.
  intros H. unfold after_rules. rewrite (take_S_r _ _ _ H).
  now rewrite apply_replacements_app.
Qed.

Lemma after_rules_all (text : string) :
  after_rules (List.length REPLACEMENTS) text = fst (rewrite text).
Proof. reflexivity. Qed.

Lemma gone_after i old new (text : string) :
  REPLACEMENTS !! i = Some (old, new) ->
  cannot_form old (old, new) = true ->
  contains (after_rules (S i) text) old = false.
Proof.
  intros H Hc. rewrite (after_rules_succ _ _ _ _ H).
  destruct (table_patterns_unbordered old new (lookup_In _ _ _ H)).
  now apply Gone.replace_removes.
Qed.

Lemma stays_gone i old new (q text : string) :
  REPLACEMENTS !! i = Some (old, new) ->
  cannot_form q (old, new) = true ->
  contains (after_rules i text) q = false ->
  contains (after_rules (S i) text) q = false.
Proof.
  intros H Hc Hq. rewrite (after_rules_succ _ _ _ _ H).
  destruct (table_patterns_unbordered old new (lookup_In _ _ _ H)).
  now apply Gone.replace_keeps_absent.
Qed.

(** A rule finds nothing to do when a part of its pattern is gone. *)
Lemma rule_without_work i old new (p text : string) :
  REPLACEMENTS !! i = Some (old, new) ->
  contains old p = true ->
  contains (after_rules i text) p = false ->
  after_rules (S i) text = after_rules i text.
Proof.
  intros H Hp Hc. rewrite (after_rules_succ _ _ _ _ H).
  apply replace_absent'. exact (Gone.contains_trans _ _ _ Hp Hc).
Qed.

(** C1. The rules are applied strictly in table order, each on the whole
    of the text the rules before it left.  The pass goes through one text
    per position of the table: the first is the input; at every rule
    [(old, new)] the next text is the current one with every occurrence of
    [old] replaced by [new] (the current text is its pieces joined by
    [old], the next one the same pieces joined by [new], there is one piece
    more than there are occurrences and no piece holds one); the text after
    the last rule is the result. *)
Theorem rewrite_in_table_order (text : string) :
  exists stages : nat -> string,
    stages 0 = text /\
    (forall i old new,
        REPLACEMENTS !! i = Some (old, new) ->
        stages (S i) = replace (stages i) old new /\
        exists pieces,
          stages i = String.concat old pieces /\
          stages (S i) = String.concat new pieces /\
          List.length pieces = S (occurrences old (stages i)) /\
          Forall (fun piece => contains piece old = false) pieces) /\
    fst (rewrite text) = stages (List.length REPLACEMENTS).
Proof.
  exists (fun i => after_rules i text).
  split; [reflexivity|]. split; [|reflexivity].
  intros i old new Hi. rewrite (after_rules_succ _ _ _ _ Hi).
  split; [reflexivity|].
  destruct (table_patterns_unbordered old new (lookup_In _ _ _ Hi))
    as [Hne Hb].
  destruct (Pieces.replace_pieces old new Hne Hb (after_rules i text))
    as (pieces & E1 & E2 & E3 & E4).
  now exists pieces.
Qed.

(** X1. A text in which no pattern of the table occurs comes back as it is,
    with the flag false. *)
Theorem pattern_free_text_unchanged (text : string) :
  (forall old new, In (old, new) REPLACEMENTS ->
                   ~ exists a b, text = a +:+ old +:+ b) ->
  rewrite text = (text, false).
Proof.
  intros H.
  assert (E : apply_replacements REPLACEMENTS text = text).
  { apply apply_replacements_absent. apply forallb_forall.
    intros [old new] Hin. apply negb_true_iff, not_true_iff_false.
    intros Hc%contains_iff. exact (H old new Hin Hc). }
  unfold rewrite. rewrite E. f_equal.
  apply negb_false_iff, String.eqb_refl.
Qed.

Lemma pattern_free_text_unchanged_witness :
  rewrite "<span className='text-gray-400 px-2'>ok</span>" =
  ("<span className='text-gray-400 px-2'>ok</span>", false).
Proof.
  apply (pattern_free_text_unchanged
           "<span className='text-gray-400 px-2'>ok</span>").
  intros old new Hin Hc%contains_iff.
  assert (H : forallb
                (fun rule : string * string =>
                   negb (contains
                           "<span className='text-gray-400 px-2'>ok</span>"
                           (fst rule)))
                REPLACEMENTS = true) by (vm_compute; reflexivity).
  apply (proj1 (forallb_forall _ _) H) in Hin. cbn [fst] in Hin.
  apply negb_true_iff in Hin. congruence.
Defined.

(** X2. A character that occurs in no pattern of the table separates the
    text: the parts before and after it are rewritten as if each stood
    alone, and the character stays where it is. *)
Theorem rewrite_splits_at_separator c (a b : string) :
  separator c = true ->
  fst (rewrite (a +:+ String c b)) =
  fst (rewrite a) +:+ String c (fst (rewrite b)).
Proof. apply Blocks.rewrite_around_separator. Qed.

Lemma rewrite_splits_at_separator_witness :
  fst (rewrite ("a bg-slate-800" +:+ String "="%char "text-slate-400 b")) =
  fst (rewrite "a bg-slate-800")
  +:+ String "="%char (fst (rewrite "text-slate-400 b")).
Proof.
  apply (rewrite_splits_at_separator "="%char "a bg-slate-800"
           "text-slate-400 b").
  vm_compute. reflexivity.
Defined.

(** X3. The pass works line by line: the result for lines joined by line
    feeds is the results for the lines, joined by line feeds. *)
Theorem rewrite_line_by_line (lines : list string) :
  fst (rewrite (String.concat newline lines)) =
  String.concat newline (List.map (fun line => fst (rewrite line)) lines).
Proof.
  induction lines as [|x lines IH]; [vm_compute; reflexivity|].
  destruct lines as [|y lines]; [reflexivity|].
  change (String.concat newline (x :: y :: lines))
    with (x +:+ String (Ascii.ascii_of_nat 10)
                       (String.concat newline (y :: lines))).
  rewrite Blocks.rewrite_around_separator by (vm_compute; reflexivity).
  rewrite IH. reflexivity.
Qed.

(** X4. A block of text that every rule is clear of ([track] follows it
    through the table) is rewritten the same way wherever it stands, and the
    texts on its two sides are rewritten as if each stood alone. *)
Theorem clear_block_rewritten_alone (b b' x y : string) :
  track REPLACEMENTS b = Some b' ->
  fst (rewrite (x +:+ b +:+ y)) =
  fst (rewrite x) +:+ b' +:+ fst (rewrite y).
Proof. intros H. now apply (Cut.track_sound REPLACEMENTS). Qed.

Lemma clear_block_rewritten_alone_witness :
  fst (rewrite ("p-2 " +:+ "border-slate-800/50" +:+ " hover:bg-slate-700")) =
  fst (rewrite "p-2 ") +:+ "border-gray-800"
  +:+ fst (rewrite " hover:bg-slate-700").
Proof.
  apply (clear_block_rewritten_alone "border-slate-800/50" "border-gray-800"
           "p-2 " " hover:bg-slate-700").
  vm_compute. reflexivity.
Defined.

(** X5. For every rule of the table but the twenty-four at the positions
    [context_bound], a block equal to the pattern of the rule becomes the
    replacement of the rule wherever it stands, and the texts on its two
    sides are rewritten as if each stood alone. *)
Theorem rule_applies_in_any_context i old new (a b : string) :
  REPLACEMENTS !! i = Some (old, new) ->
  ~ In i context_bound ->
  fst (rewrite (a +:+ old +:+ b)) =
  fst (rewrite a) +:+ new +:+ fst (rewrite b).
Proof.
  intros Hi Hn.
  pose (P := fun (i : nat) (rule : string * string) =>
               existsb (Nat.eqb i) context_bound
               || match track REPLACEMENTS (fst rule) with
                  | Some out => String.eqb out (snd rule)
                  | None => false
                  end).
  assert (H : P i (old, new) = true).
  { apply table_forall; [vm_compute; reflexivity | exact Hi]. }
  unfold P in H. cbn [fst snd] in H. apply orb_true_iff in H as [H|H].
  - apply existsb_exists in H as (k & Hk & ->%Nat.eqb_eq). contradiction.
  - destruct (track REPLACEMENTS old) as [out|] eqn:Ht; [|discriminate].
    apply String.eqb_eq in H as ->.
    now apply (Cut.track_sound REPLACEMENTS).
Qed.

Lemma rule_applies_in_any_context_witness :
  fst (rewrite ("<td class='" +:+ "text-emerald-400" +:+ " bg-red-500'>")) =
  fst (rewrite "<td class='") +:+ "text-success-400"
  +:+ fst (rewrite " bg-red-500'>").
Proof.
  apply (rule_applies_in_any_context 42 "text-emerald-400" "text-success-400"
           "<td class='" " bg-red-500'>").
  - reflexivity.
  - intros H. vm_compute in H. repeat (destruct H as [H|H]; [discriminate|]).
    exact H.
Defined.

(** X6. Right after a rule has run, its pattern occurs nowhere in the
    accumulated text.  This holds for every rule whose replacement is not
    empty, but for the first rule of the table. *)
Theorem pattern_gone_after_its_rule i old new (text : string) :
  REPLACEMENTS !! i = Some (old, new) ->
  1 <= i <= 80 ->
  contains (after_rules (S i) text) old = false.
Proof.
  intros Hi Hr. apply (gone_after i old new text Hi).
  pose (P := fun (i : nat) (rule : string * string) =>
               Nat.eqb i 0 || Nat.ltb 80 i || cannot_form (fst rule) rule).
  assert (H : P i (old, new) = true).
  { apply table_forall; [vm_compute; reflexivity | exact Hi]. }
  unfold P in H. cbn [fst] in H.
  apply orb_true_iff in H as [H|H]; [|exact H].
  apply orb_true_iff in H as [H%Nat.eqb_eq|H%Nat.ltb_lt]; lia.
Qed.

Lemma pattern_gone_after_its_rule_witness :
  contains
    (after_rules 21 "bg-slate-800 bg-slate-800/50 hover:bg-slate-800/20")
    "bg-slate-800" = false.
Proof.
  apply (pattern_gone_after_its_rule 20 "bg-slate-800" "bg-gray-800"
           "bg-slate-800 bg-slate-800/50 hover:bg-slate-800/20").
  - reflexivity.
  - lia.
Defined.

(** The first rule is the exception: its replacement starts with the
    [rounded-2xl] its pattern ends with, so the pass can leave the pattern
    behind. *)
Lemma first_rule_pattern_can_remain :
  contains
    (after_rules 1
       ("bg-[#121212] backdrop-blur border border-slate-800 "
        +:+ "bg-[#121212] backdrop-blur border border-slate-800 rounded-2xl"))
    "bg-[#121212] backdrop-blur border border-slate-800 rounded-2xl" = true.
Proof. vm_compute. reflexivity. Qed.

(** X7. Four rules never change any text: when the rule for
    [hover:bg-emerald-500] (position 40), for [hover:bg-red-500] (50), for
    [hover:bg-purple-500] (69) or for [focus:ring-purple-500] (74) runs, an
    earlier rule has already removed every occurrence of a part of its
    pattern.  The table without these four rules gives the same result for
    every text. *)
Theorem shadowed_rules_never_fire (text : string) :
  after_rules 41 text = after_rules 40 text /\
  after_rules 51 text = after_rules 50 text /\
  after_rules 70 text = after_rules 69 text /\
  after_rules 75 text = after_rules 74 text /\
  apply_replacements (without [40; 50; 69; 74] REPLACEMENTS) text =
  fst (rewrite text).
Proof.
  assert (D40 : forall t, after_rules 41 t = after_rules 40 t).
  { intros t.
    apply (rule_without_work 40 _ _ "bg-emerald-500" t eq_refl);
      [vm_compute; reflexivity|].
    apply (stays_gone 39 _ _ _ t eq_refl); [vm_compute; reflexivity|].
    apply (gone_after 38 _ _ t eq_refl). vm_compute. reflexivity. }
  assert (D50 : forall t, after_rules 51 t = after_rules 50 t).
  { intros t.
    apply (rule_without_work 50 _ _ "bg-red-500" t eq_refl);
      [vm_compute; reflexivity|].
    apply (gone_after 49 _ _ t eq_refl). vm_compute. reflexivity. }
  assert (D69 : forall t, after_rules 70 t = after_rules 69 t).
  { intros t.
    apply (rule_without_work 69 _ _ "bg-purple-500" t eq_refl);
      [vm_compute; reflexivity|].
    apply (stays_gone 68 _ _ _ t eq_refl); [vm_compute; reflexivity|].
    apply (gone_after 67 _ _ t eq_refl). vm_compute. reflexivity. }
  assert (D74 : forall t, after_rules 75 t = after_rules 74 t).
  { intros t.
    apply (rule_without_work 74 _ _ "ring-purple-500" t eq_refl);
      [vm_compute; reflexivity|].
    apply (gone_after 73 _ _ t eq_refl). vm_compute. reflexivity. }
  repeat (split; [auto|]).
  assert (S : forall n k t,
             after_rules (n + k) t =
             apply_replacements (firstn k (skipn n REPLACEMENTS))
                                (after_rules n t)).
  { intros n k t. unfold after_rules.
    rewrite <- apply_replacements_app. f_equal.
    rewrite <- (firstn_skipn n (firstn (n + k) REPLACEMENTS)).
    rewrite firstn_firstn, skipn_firstn_comm.
    f_equal; f_equal; lia. }
  change (fst (rewrite text)) with (after_rules (75 + 9) text).
  rewrite S, D74. change 74 with (70 + 4). rewrite S, D69.
  change 69 with (51 + 18). rewrite S, D50.
  change 50 with (41 + 9). rewrite S, D40.
  unfold after_rules. rewrite <- !apply_replacements_app.
  reflexivity.
Qed.

End Table.

(** * Whole runs *)

Section Run.
Import Str StrFacts.
Variable script_dir : string.













(** The files after one step of the loop, whatever the step met: they are
    as they were, or the regular file the path leads to holds its rewritten
    content. *)
Lemma main_step_files (name : string) (w : world) :
  let path := target_path script_dir name in
  let w' := snd (main_step script_dir name w) in
  files w' = files w \/
  exists p content r,
    resolve MAXSYMLINKS (files w) path
    = Found p (RegularFile content r true) /\
    files w' = <[p := RegularFile (fst (rewrite content)) r true]> (files w).
Proof.
  intros path w'. unfold w', main_step, bind, path_exists.
  fold (target_path script_dir name). fold path.
  destruct (resolve MAXSYMLINKS (files w) path) as [p n| |] eqn:E;
    [|now left..].
  destruct n as [content r wr| |r wr|t].
  - destruct r.
    + rewrite (process_file_found path p content wr) by exact E.
      destruct (snd (rewrite content)); [|now left].
      unfold write_text, emit. cbn [files trace]. rewrite E.
      destruct wr; [|now left].
      right. now exists p, content, true.
    + left. unfold process_file, bind, read_text, emit. cbn [files].
      now rewrite E.
  - left. unfold process_file, bind, read_text, emit. cbn [files].
    now rewrite E.
  - left. unfold process_file, bind, read_text, emit. cbn [files].
    rewrite E. now destruct r.
  - left. unfold process_file, bind, read_text, emit. cbn [files].
    now rewrite E.
Qed.

Lemma same_kind_refl (a : option node) : same_kind a a.
Proof. destruct a as [[content r wr| |r wr|t]|]; cbn; auto. Qed.

Lemma same_kind_trans (a b c : option node) :
  same_kind a b -> same_kind b c -> same_kind a c.
Proof.
  destruct a as [[? ? ?| |? ?|?]|], b as [[? ? ?| |? ?|?]|],
           c as [[? ? ?| |? ?|?]|]; cbn; try tauto;
    intuition congruence.
Qed.

(** One step of the loop changes nothing but the content of the file its
    path leads to. *)
Lemma main_step_shape (name : string) (w : world) (q : string) :
  (leads_to (files w) (target_path script_dir name) <> Some q ->
   files (snd (main_step script_dir name w)) !! q = files w !! q) /\
  same_kind (files w !! q) (files (snd (main_step script_dir name w)) !! q).
Proof.
  destruct (main_step_files name w) as [->|(p & content & r & E & ->)].
  - split; [reflexivity | apply same_kind_refl].
  - destruct (Fs.resolve_found _ _ _ _ _ E) as [Hp _].
    unfold leads_to. rewrite E. split.
    + intros N. apply lookup_insert_ne. congruence.
    + destruct (decide (p = q)) as [<-|N].
      * rewrite lookup_insert_eq, Hp. cbn. auto.
      * rewrite lookup_insert_ne by exact N. apply same_kind_refl.
Qed.

Lemma for_each_shape names (w : world) :
  (forall q,
      (forall name, In name names ->
         leads_to (files w) (target_path script_dir name) <> Some q) ->
      files (snd (for_each names (main_step script_dir) w)) !! q
      = files w !! q) /\
  (forall q,
      same_kind (files w !! q)
        (files (snd (for_each names (main_step script_dir) w)) !! q)).
Proof.
  revert w. induction names as [|name names IH]; intros w.
  - split; intros q; [reflexivity | apply same_kind_refl].
  - rewrite for_each_cons.
    assert (S1 := fun q => proj1 (main_step_shape name w q)).
    assert (S2 := fun q => proj2 (main_step_shape name w q)).
    destruct (main_step script_dir name w) as [[e|[]] w1]; cbn [snd] in *.
    + split; [|exact S2]. intros q N. apply S1, N. now left.
    + destruct (IH w1) as [I1 I2]. split.
      * intros q N. rewrite I1.
        -- apply S1, N. now left.
        -- intros other Hin. rewrite (Fs.leads_to_same_kind _ _ _ S2).
           apply N. now right.
      * intros q. exact (same_kind_trans _ _ _ (S2 q) (I2 q)).
Qed.

(** X10. Whatever the files are, and whether the run ends normally or with
    an exception, [main] changes nothing but the files its listed paths lead
    to: every path that no listed path leads to holds what it held; and at
    every path it creates nothing, removes nothing, keeps directories and
    links, and keeps the permissions of files. *)
Theorem main_keeps_file_system_shape (w : world) :
  (forall q,
      (forall name, In name FILES ->
         leads_to (files w) (target_path script_dir name) <> Some q) ->
      files (snd (main script_dir w)) !! q = files w !! q) /\
  (forall q, same_kind (files w !! q) (files (snd (main script_dir w)) !! q)).
Proof. apply for_each_shape. Qed.



End Run.


(** ** The run on small file systems *)




Lemma unreadable_file_is_fatal_witness :
  for_each ["LogViewer.tsx"; "UCCLPanel.tsx"] (main_step "/srv/dash")
    {| files := {[ "/srv/dash/components/LogViewer.tsx" :=
                     RegularFile "<p class='text-slate-400'>" false true ]};
       trace := [] |} =
  (inl (PermissionError "/srv/dash/components/LogViewer.tsx"),
   {| files := {[ "/srv/dash/components/LogViewer.tsx" :=
                    RegularFile "<p class='text-slate-400'>" false true ]};
      trace := [Exists "/srv/dash/components/LogViewer.tsx"] |}).
Proof.
  refine (eq_trans
    (unreadable_file_is_fatal "/srv/dash" "LogViewer.tsx"
       "<p class='text-slate-400'>" true ["UCCLPanel.tsx"]
       {| files := {[ "/srv/dash/components/LogViewer.tsx" :=
                        RegularFile "<p class='text-slate-400'>"
                                    false true ]};
          trace := [] |} _) _).
  - vm_compute. reflexivity.
  - reflexivity.
Defined.


(** A listed path that is a link: the file it leads to is the one that is
    read and written, and the link stays a link. *)
Lemma write_goes_through_link :
  main_step "/srv/dash" "LogViewer.tsx"
    {| files := {[ "/srv/dash/components/LogViewer.tsx" :=
                     Link "/srv/shared/LogViewer.tsx";
                   "/srv/shared/LogViewer.tsx" :=
                     RegularFile "<p class='text-slate-400'>" true true ]};
       trace := [] |} =
  (inr tt,
   {| files := {[ "/srv/dash/components/LogViewer.tsx" :=
                    Link "/srv/shared/LogViewer.tsx";
                  "/srv/shared/LogViewer.tsx" :=
                    RegularFile "<p class='text-gray-400'>" true true ]};
      trace := [Exists "/srv/dash/components/LogViewer.tsx";
                Read "/srv/dash/components/LogViewer.tsx";
                Write "/srv/dash/components/LogViewer.tsx"
                      "<p class='text-gray-400'>";
                Print "UPDATED: LogViewer.tsx"] |}).
Proof. vm_compute. reflexivity. Qed.

(** A link that leads nowhere does not exist for [main]. *)
Lemma dangling_link_is_missing :
  main_step "/srv/dash" "LogViewer.tsx"
    {| files := {[ "/srv/dash/components/LogViewer.tsx" :=
                     Link "/srv/shared/LogViewer.tsx" ]};
       trace := [] |} =
  (inr tt,
   {| files := {[ "/srv/dash/components/LogViewer.tsx" :=
                    Link "/srv/shared/LogViewer.tsx" ]};
      trace := [Exists "/srv/dash/components/LogViewer.tsx";
                Print "MISSING: LogViewer.tsx"] |}).
Proof. vm_compute. reflexivity. Qed.
